(** * React-Query bindings of the tRPC client: a model of
      [packages/react/src/createReactQueryHooks.ts]

    The file models the cache-key derivation ([getCacheKey]), [useInstance],
    the hooks [useQuery], [useInfiniteQuery], [useSubscription] and
    [useLiveQuery], the server-side facade [ssr], the rehydration helper
    [useDehydratedState] and the utilities of [useQueryUtils], and states
    the properties of the specification about them.

    JavaScript values are a first-order datatype; the query cache of
    react-query is a finite map from the hashes of query keys to data;
    React's effect scheduling and promises are explicit transition
    systems. *)

From stdpp Require Import gmap strings list fin_maps sorting.
From Stdlib Require Import ZArith.

Open Scope Z_scope.
Open Scope string_scope.
Open Scope list_scope.

(** ** JavaScript values *)

(** Primitive values.  On these [Object.is] is plain equality (numbers are
    integers here, so neither NaN nor a signed zero occurs). *)
Inductive prim : Type :=
  | PUndefined
  | PNull
  | PBool (b : bool)
  | PNum (z : Z)
  | PStr (s : string).

(** Values: primitives, arrays, and objects as insertion-ordered lists of
    properties. *)
Unset Elimination Schemes.
Inductive jsval : Type :=
  | JPrim (p : prim)
  | JArr (items : list jsval)
  | JObj (fields : list (string * jsval)).
Set Elimination Schemes.

Coercion JPrim : prim >-> jsval.

Abbreviation JUndefined := (JPrim PUndefined).
Abbreviation JNull := (JPrim PNull).
Abbreviation JNum z := (JPrim (PNum z)).
Abbreviation JStr s := (JPrim (PStr s)).

(** The induction principle that reaches the values nested in arrays and
    objects. *)
Section jsval_rect_nested.
Variable P : jsval → Prop.
Hypothesis Hprim : ∀ p, P (JPrim p).
Hypothesis Harr : ∀ l, Forall P l → P (JArr l).
Hypothesis Hobj : ∀ fs, Forall (λ kv, P kv.2) fs → P (JObj fs).

Fixpoint jsval_nested_ind (v : jsval) : P v :=
  match v with
  | JPrim p => Hprim p
  | JArr l =>
      Harr l ((fix go (l : list jsval) : Forall P l :=
                 match l with
                 | [] => List.Forall_nil _
                 | x :: l' => @List.Forall_cons _ P x l' (jsval_nested_ind x) (go l')
                 end) l)
  | JObj fs =>
      Hobj fs ((fix go (fs : list (string * jsval)) : Forall (λ kv, P kv.2) fs :=
                  match fs with
                  | [] => List.Forall_nil _
                  | kv :: fs' =>
                      @List.Forall_cons _ (λ kv, P kv.2) kv fs' (jsval_nested_ind kv.2) (go fs')
                  end) fs)
  end.
End jsval_rect_nested.

Global Instance prim_eq_dec : EqDecision prim.
Proof. solve_decision. Defined.

Global Instance prim_countable : Countable prim.
Proof.
  refine (inj_countable'
    (λ p, match p with
          | PUndefined => inl (inl true)
          | PNull => inl (inl false)
          | PBool b => inl (inr b)
          | PNum z => inr (inl z)
          | PStr s => inr (inr s)
          end)
    (λ c, match c with
          | inl (inl true) => PUndefined
          | inl (inl false) => PNull
          | inl (inr b) => PBool b
          | inr (inl z) => PNum z
          | inr (inr s) => PStr s
          end) _).
  by intros [].
Qed.

(** Values are countable, through stdpp's generic trees: this is what lets
    query keys index a [gmap]. *)
Fixpoint jsval_encode (v : jsval) : gen_tree (prim + string) :=
  match v with
  | JPrim p => GenLeaf (inl p)
  | JArr l => GenNode 0 (map jsval_encode l)
  | JObj fs =>
      GenNode 1 (map (λ kv, GenNode 2 [GenLeaf (inr kv.1); jsval_encode kv.2]) fs)
  end.

Fixpoint jsval_decode (t : gen_tree (prim + string)) : jsval :=
  match t with
  | GenLeaf (inl p) => JPrim p
  | GenLeaf (inr _) => JUndefined
  | GenNode 0 ts => JArr (map jsval_decode ts)
  | GenNode _ ts =>
      JObj (map (λ t, match t with
                      | GenNode _ [GenLeaf (inr k); t'] => (k, jsval_decode t')
                      | _ => ("", JUndefined)
                      end) ts)
  end.

Lemma jsval_decode_encode (v : jsval) : jsval_decode (jsval_encode v) = v.
Proof.
  induction v as [p | l IH | fs IH] using jsval_nested_ind; simpl.
  - done.
  - f_equal. rewrite map_map. induction IH as [| x l Hx _ IHl]; simpl; [done |].
    by rewrite Hx, IHl.
  - f_equal. rewrite map_map. induction IH as [| [k x] fs Hx _ IHfs]; simpl; [done |].
    simpl in Hx. by rewrite Hx, IHfs.
Qed.

Global Instance jsval_eq_dec : EqDecision jsval.
Proof.
  intros v w. destruct (decide (jsval_encode v = jsval_encode w)) as [E | E].
  - left. by rewrite <- (jsval_decode_encode v), E, jsval_decode_encode.
  - right. by intros ->.
Defined.

Global Instance jsval_countable : Countable jsval.
Proof. exact (inj_countable' jsval_encode jsval_decode jsval_decode_encode). Qed.

(** [fields[k]]: the value of a property, if the object has it. *)
Fixpoint obj_get (k : string) (fields : list (string * jsval)) : option jsval :=
  match fields with
  | [] => None
  | (k', v) :: rest => if decide (k' = k) then Some v else obj_get k rest
  end.

(** Deep equality of values: arrays are compared position by position and
    objects property by property, whatever the order in which the
    properties were written. *)
Unset Elimination Schemes.
Inductive deep_equal : jsval → jsval → Prop :=
  | deep_equal_prim (p : prim) : deep_equal (JPrim p) (JPrim p)
  | deep_equal_arr (l1 l2 : list jsval) :
      Forall2 deep_equal l1 l2 → deep_equal (JArr l1) (JArr l2)
  | deep_equal_obj (f1 f2 : list (string * jsval)) :
      (∀ k, option_Forall2 deep_equal (obj_get k f1) (obj_get k f2)) →
      deep_equal (JObj f1) (JObj f2).
Set Elimination Schemes.

(** [{...fields, k: v}]: the property keeps its place when it exists and is
    added last otherwise. *)
Fixpoint obj_set (k : string) (v : jsval) (fields : list (string * jsval))
  : list (string * jsval) :=
  match fields with
  | [] => [(k, v)]
  | (k', v') :: rest =>
      if decide (k' = k) then (k, v) :: rest else (k', v') :: obj_set k v rest
  end.

(** [v ?? d] *)
Definition nullish (v : jsval) : bool :=
  match v with
  | JPrim PUndefined | JPrim PNull => true
  | _ => false
  end.

Definition nullish_coalesce (v d : jsval) : jsval := if nullish v then d else v.

Infix "??" := nullish_coalesce (at level 45, left associativity).

(** The truth value of a string in a condition: only the empty string is
    falsy. *)
Definition truthy_str (s : string) : bool := bool_decide (s ≠ "").

(** ** Cache keys (source lines 35-48) *)

Definition CACHE_KEY_INFINITE_QUERY : string := "TRPC_INFINITE_QUERY".
Definition CACHE_KEY_LIVE_QUERY : string := "TRPC_LIVE_QUERY".
Definition CACHE_KEY_QUERY : string := "TRPC_QUERY".

Definition QueryKey : Type := list jsval.

(** [pathAndArgs]: the tuple [[path, ...args]]. *)
Definition PathAndArgs : Type := string * list jsval.

(** The array pattern [[path, input]]: a position the tuple does not have
    yields [undefined]. *)
Definition tuple_input (pathAndArgs : PathAndArgs) : jsval :=
  default JUndefined (pathAndArgs.2 !! 0%nat).

(** [extras] is an optional parameter: [None] when the caller leaves it
    out. *)
Definition getCacheKey (pathAndArgs : PathAndArgs) (extras : option string) : QueryKey :=
  let path := pathAndArgs.1 in
  let input := tuple_input pathAndArgs in
  let cacheKey := [JStr path; input ?? JNull] in
  match extras with
  | Some e => if truthy_str e then cacheKey ++ [JStr e] else cacheKey
  | None => cacheKey
  end.

(** Two keys are structurally equal when they have the same length and
    deep-equal elements. *)
Definition key_equal (k1 k2 : QueryKey) : Prop := Forall2 deep_equal k1 k2.

(** ** Promises and the query cache *)

(** The outcome of a promise that has settled. *)
Inductive settled (A : Type) : Type :=
  | Fulfilled (a : A)
  | Rejected (err : jsval).
Arguments Fulfilled {A} a.
Arguments Rejected {A} err.

(** [await] inside an [async] function: a rejection leaves the function,
    which then rejects with the same reason. *)
Definition await {A B : Type} (p : settled A) (k : A → settled B) : settled B :=
  match p with
  | Fulfilled a => k a
  | Rejected e => Rejected e
  end.

Notation "'let_await' x ':=' p 'in' k" := (await p (λ x, k))
  (at level 10, x name, p at level 100, k at level 200, only parsing).

(** Modelled from the spec: the external cache store (react-query's
    [QueryClient], which is not part of this repository) files its entries
    under the hash of the query key, [hashQueryKey]: the JSON text of the
    key, in which the properties of an object are written in sorted order.
    The hash is represented by a canonical value instead of its text: in an
    array [undefined] becomes [null], in an object a property whose value is
    [undefined] is left out, and the properties are put in an order that
    depends on their names only.  Two keys have the same hash exactly when
    they have the same canonical form. *)
Definition undefined_to_null (v : jsval) : jsval :=
  match v with
  | JPrim PUndefined => JNull
  | _ => v
  end.

Fixpoint canon (v : jsval) : jsval :=
  match v with
  | JPrim p => JPrim p
  | JArr l => JArr (map (λ x, undefined_to_null (canon x)) l)
  | JObj fs =>
      JObj (map_to_list
              (filter (λ kv : string * jsval, kv.2 ≠ JUndefined)
                 (list_to_map (map (λ kv, (kv.1, canon kv.2)) fs) : gmap string jsval)))
  end.

Definition query_hash (key : QueryKey) : list jsval :=
  map (λ x, undefined_to_null (canon x)) key.

(** Modelled from the spec: the external cache store owns the fetched data.
    The entries are held by query hash; an entry is read and written
    through a query key, by way of its hash. *)
Record QueryCache : Type := {
  cache_entries : gmap (list jsval) jsval;
}.

Abbreviation QueryClient := QueryCache.

Global Instance cache_lookup : Lookup QueryKey jsval QueryCache :=
  λ key qc, cache_entries qc !! query_hash key.

Global Instance cache_insert : Insert QueryKey jsval QueryCache :=
  λ key d qc, {| cache_entries := <[query_hash key := d]> (cache_entries qc) |}.

Global Instance cache_empty : Empty QueryCache := {| cache_entries := ∅ |}.

Global Arguments cache_lookup : simpl never.
Global Arguments cache_insert : simpl never.
Global Arguments cache_empty : simpl never.

(** The prefetch primitives of the cache, the collaborator the facade hands
    its key and its fetch function to.  Each returns the cache after the
    call and the outcome of the promise it hands back. *)
Record QueryClientApi : Type := {
  qc_prefetchQuery :
    QueryClient → QueryKey → (unit → settled jsval) → QueryClient * settled jsval;
  qc_prefetchInfiniteQuery :
    QueryClient → QueryKey → (unit → settled jsval) → QueryClient * settled jsval;
}.

(** What [fetchInfiniteQuery] stores for a first page. *)
Definition infinite_data (page : jsval) : jsval :=
  JObj [("pages", JArr [page]); ("pageParams", JArr [JUndefined])].

(** Modelled from the spec: [prefetchQuery(key, fetchFn)] of the external
    cache store runs the fetch function and stores the data of a success
    under the key.  The promise it hands back is react-query's: there
    [prefetchQuery] is [fetchQuery(...).then(noop).catch(noop)], fulfilled
    with [undefined] whether the fetch function succeeded or failed.  An
    entry that is present is fetched again (the default [staleTime] is
    zero). *)
Definition rq_prefetchQuery (qc : QueryClient) (key : QueryKey)
    (fetchFn : unit → settled jsval) : QueryClient * settled jsval :=
  match fetchFn () with
  | Fulfilled d => (<[key := d]> qc, Fulfilled JUndefined)
  | Rejected _ => (qc, Fulfilled JUndefined)
  end.

Definition rq_prefetchInfiniteQuery (qc : QueryClient) (key : QueryKey)
    (fetchFn : unit → settled jsval) : QueryClient * settled jsval :=
  match fetchFn () with
  | Fulfilled d => (<[key := infinite_data d]> qc, Fulfilled JUndefined)
  | Rejected _ => (qc, Fulfilled JUndefined)
  end.

Definition react_query : QueryClientApi :=
  {| qc_prefetchQuery := rq_prefetchQuery;
     qc_prefetchInfiniteQuery := rq_prefetchInfiniteQuery |}.

(** Modelled from the spec: [setData(key, value)] of the external cache
    store, [queryClient.setQueryData(key, data)], writes the entry of
    exactly that key. *)
Definition rq_setQueryData (qc : QueryClient) (key : QueryKey) (data : jsval)
  : QueryClient := <[key := data]> qc.

(** Modelled from the spec: the snapshot of the external cache store
    ([react-query/hydration]) and [dehydrate(instance, options)].  The
    queries of a snapshot are listed by their hash.  [DehydrateOptions]
    carries the filter [shouldDehydrateQuery]; without it every query that
    holds data is exported. *)
Record DehydratedState : Type := {
  mutations : list jsval;
  queries : list (QueryKey * jsval);
}.

Definition DehydrateOptions : Type := QueryKey → jsval → bool.

Definition rq_dehydrate (qc : QueryClient) (opts : option DehydrateOptions)
  : DehydratedState :=
  {| mutations := [];
     queries :=
       match opts with
       | Some keep =>
           filter (λ kd, keep kd.1 kd.2 = true) (map_to_list (cache_entries qc))
       | None => map_to_list (cache_entries qc)
       end |}.

(** Modelled from the spec: rehydration of the client-side cache from a
    snapshot.  The queries of the snapshot enter the cache; an entry the
    client already has is kept. *)
Definition rq_hydrate (qc : QueryClient) (st : DehydratedState) : QueryClient :=
  {| cache_entries := cache_entries qc ∪ list_to_map (queries st) |}.

(** [client.transformer].  The source types the result of [serialize] and
    the argument of [deserialize] as [DehydratedState]. *)
Record DataTransformer : Type := {
  serialize : DehydratedState → DehydratedState;
  deserialize : DehydratedState → DehydratedState;
}.

(** ** The server-side facade [ssr] (source lines 205-254) *)

Section ssr.
(** The cache primitives, the direct caller [router.createCaller(ctx)]
    (its [query] method, with the outcome of each call), and the
    transformer of the client. *)
Variable api : QueryClientApi.
Variable caller_query : PathAndArgs → settled jsval.
Variable transformer : DataTransformer.

(** [async () => { const data = await caller.query(...pathAndArgs); return data; }] *)
Definition ssr_fetchFn (pathAndArgs : PathAndArgs) : unit → settled jsval :=
  λ _, let_await data := caller_query pathAndArgs in Fulfilled data.

Definition ssr_prefetchQuery_cacheKey (pathAndArgs : PathAndArgs) : QueryKey :=
  let path := pathAndArgs.1 in
  let input := tuple_input pathAndArgs in
  [JStr path; input ?? JNull; JStr CACHE_KEY_QUERY].

Definition ssr_prefetchQuery (queryClient : QueryClient) (pathAndArgs : PathAndArgs)
  : QueryClient * settled jsval :=
  let cacheKey := ssr_prefetchQuery_cacheKey pathAndArgs in
  qc_prefetchQuery api queryClient cacheKey (ssr_fetchFn pathAndArgs).

Definition ssr_prefetchInfiniteQuery_cacheKey (pathAndArgs : PathAndArgs) : QueryKey :=
  getCacheKey pathAndArgs (Some CACHE_KEY_INFINITE_QUERY).

Definition ssr_prefetchInfiniteQuery (queryClient : QueryClient)
    (pathAndArgs : PathAndArgs) : QueryClient * settled jsval :=
  let cacheKey := ssr_prefetchInfiniteQuery_cacheKey pathAndArgs in
  qc_prefetchInfiniteQuery api queryClient cacheKey (ssr_fetchFn pathAndArgs).

Definition ssr_dehydrate (queryClient : QueryClient) (opts : option DehydrateOptions)
  : DehydratedState :=
  serialize transformer (rq_dehydrate queryClient opts).

(** [useDehydratedState] (source lines 256-265); [useMemo] only caches the
    result.  The argument is optional, and a [DehydratedState] is an
    object, hence truthy. *)
Definition useDehydratedState (dehydratedState : option DehydratedState)
  : option DehydratedState :=
  match dehydratedState with
  | None => None
  | Some st => Some (deserialize transformer st)
  end.
End ssr.

(** ** The query hooks and utilities on the client *)

(** The key of [_useQuery] (line 84) and of [_useInfiniteQuery] (line 277),
    and of [useLiveQuery] (line 168). *)
Definition useQuery_cacheKey (pathAndArgs : PathAndArgs) : QueryKey :=
  getCacheKey pathAndArgs (Some CACHE_KEY_QUERY).

Definition useInfiniteQuery_cacheKey (pathAndArgs : PathAndArgs) : QueryKey :=
  getCacheKey pathAndArgs (Some CACHE_KEY_INFINITE_QUERY).

Definition useLiveQuery_cacheKey (pathAndArgs : PathAndArgs) : QueryKey :=
  getCacheKey pathAndArgs (Some CACHE_KEY_LIVE_QUERY).

(** Modelled from the spec: the query primitive of the external cache
    store, [query(key, fetchFn, options)].  What a query hook shows when it
    mounts is the data the cache has under the key, and the calls
    [client.query(...pathAndArgs)] the cache starts: the round trip happens
    on the first call for a key and when the entry is stale, and a key with
    fresh data is answered from the cache with no round trip.  Whether an
    entry is stale is for the cache to say, from its clock and the
    [staleTime] of the options that the hook passes on; with the default
    [staleTime] of zero every entry is stale. *)
Record QueryResult : Type := {
  result_data : option jsval;
  rpc_calls : list PathAndArgs;
}.

Definition rq_useQuery (stale : bool) (qc : QueryClient) (key : QueryKey)
    (fetchArgs : PathAndArgs) : QueryResult :=
  match qc !! key with
  | Some d => {| result_data := Some d; rpc_calls := if stale then [fetchArgs] else [] |}
  | None => {| result_data := None; rpc_calls := [fetchArgs] |}
  end.

Definition useQuery (stale : bool) (qc : QueryClient) (pathAndArgs : PathAndArgs)
  : QueryResult :=
  let cacheKey := useQuery_cacheKey pathAndArgs in
  rq_useQuery stale qc cacheKey pathAndArgs.

(** [setQueryData] of [useQueryUtils] (source lines 326-337) *)
Definition setQueryData (queryClient : QueryClient) (pathAndArgs : PathAndArgs)
    (output : jsval) : QueryClient :=
  let cacheKey := getCacheKey pathAndArgs None in
  let queryClient := rq_setQueryData queryClient (cacheKey ++ [JStr CACHE_KEY_QUERY]) output in
  rq_setQueryData queryClient (cacheKey ++ [JStr CACHE_KEY_INFINITE_QUERY]) output.

(** ** [useSubscription] (source lines 107-148) *)

(** A callback of the caller: it is handed a value and either returns
    ([None]) or throws ([Some e]). *)
Definition Callback : Type := jsval → option jsval.

Record SubscriptionOpts : Type := {
  opt_enabled : option bool;
  opt_onError : option Callback;
  opt_onBatch : option Callback;
}.

(** An invocation of one of the two callbacks. *)
Inductive Call : Type :=
  | OnBatch (data : jsval)
  | OnError (err : jsval).

(** One run of the effect that got past the [enabled] test: the closure
    with its [stopped] flag, the options it captured, and the promise of
    [client.subscriptionOnce(path, input)] ([None] while it is pending). *)
Record Subscription : Type := {
  sub_path : string;
  sub_input : jsval;
  sub_opts : option SubscriptionOpts;
  stopped : bool;
  promise : option (settled jsval);
  cancelled : bool;
}.

(** [opts?.enabled ?? true] *)
Definition sub_enabled (opts : option SubscriptionOpts) : bool :=
  default true (opts ≫= opt_enabled).

(** [opts?.onBatch && opts.onBatch(data)] and its twin for [onError]: the
    calls made, and what is thrown if anything. *)
Definition call_optional (cb : option Callback) (mk : jsval → Call) (v : jsval)
  : list Call * option jsval :=
  match cb with
  | Some f => ([mk v], f v)
  | None => ([], None)
  end.

(** The handler given to [.then] (lines 130-135). *)
Definition then_handler (sub : Subscription) (data : jsval) : list Call * option jsval :=
  if stopped sub then ([], None)
  else call_optional (sub_opts sub ≫= opt_onBatch) OnBatch data.

(** The handler given to [.catch] (lines 136-141). *)
Definition catch_handler (sub : Subscription) (err : jsval) : list Call * option jsval :=
  if stopped sub then ([], None)
  else call_optional (sub_opts sub ≫= opt_onError) OnError err.

(** [promise.then(...).catch(...)]: the calls made when the promise settles.
    The [.catch] handler also receives what the [.then] handler throws. *)
Definition on_settle (sub : Subscription) (outcome : settled jsval) : list Call :=
  match outcome with
  | Fulfilled data =>
      match then_handler sub data with
      | (calls, None) => calls
      | (calls, Some thrown) => calls ++ (catch_handler sub thrown).1
      end
  | Rejected err => (catch_handler sub err).1
  end.

(** The cleanup returned by the effect (lines 142-145). *)
Definition sub_cleanup (sub : Subscription) : Subscription :=
  {| sub_path := sub_path sub; sub_input := sub_input sub; sub_opts := sub_opts sub;
     stopped := true;
     promise := promise sub;
     cancelled := true |}.

Definition sub_settle (sub : Subscription) (outcome : settled jsval) : Subscription :=
  {| sub_path := sub_path sub; sub_input := sub_input sub; sub_opts := sub_opts sub;
     stopped := stopped sub;
     promise := Some outcome;
     cancelled := cancelled sub |}.

(** The hook in a mounted component: the dependencies [[queryKey, enabled]]
    of the last run of the effect, the run whose cleanup is registered, all
    the runs so far, and the callback invocations so far, each with the
    number of the run it belongs to. *)
Record SubscriptionHook : Type := {
  hook_deps : option (string * bool);
  hook_current : option nat;
  hook_subs : list Subscription;
  hook_calls : list (nat * Call);
  hook_unmounted : bool;
}.

Definition subscription_init : SubscriptionHook :=
  {| hook_deps := None; hook_current := None; hook_subs := []; hook_calls := [];
     hook_unmounted := false |}.

(** What happens to the component: a render commits with the arguments of
    the hook, it unmounts, or the promise of run [i] settles. *)
Inductive SubscriptionEvent : Type :=
  | SubRender (pathAndArgs : PathAndArgs) (opts : option SubscriptionOpts)
  | SubUnmount
  | SubSettle (i : nat) (outcome : settled jsval).

Section useSubscription.
(** react-query's [hashQueryKey], which turns the tuple into the string
    the effect depends on. *)
Variable hashQueryKey : list jsval → string.

(** React runs the cleanup of the previous run of the effect, if it
    registered one. *)
Definition run_cleanup (h : SubscriptionHook) : list Subscription :=
  match hook_current h with
  | Some i => alter sub_cleanup i (hook_subs h)
  | None => hook_subs h
  end.

(** Modelled from the spec: the lifecycle of the UI runtime.  A render
    commits: the effect runs on mount and when a dependency changed, after
    the cleanup of the previous run. *)
Definition sub_render (h : SubscriptionHook) (pathAndArgs : PathAndArgs)
    (opts : option SubscriptionOpts) : SubscriptionHook :=
  let enabled := sub_enabled opts in
  let queryKey := hashQueryKey (JStr pathAndArgs.1 :: pathAndArgs.2) in
  if decide (hook_deps h = Some (queryKey, enabled)) then h
  else
    let subs := run_cleanup h in
    if negb enabled then
      {| hook_deps := Some (queryKey, enabled); hook_current := None;
         hook_subs := subs; hook_calls := hook_calls h;
         hook_unmounted := false |}
    else
      let sub :=
        {| sub_path := pathAndArgs.1; sub_input := tuple_input pathAndArgs;
           sub_opts := opts; stopped := false; promise := None;
           cancelled := false |} in
      {| hook_deps := Some (queryKey, enabled);
         hook_current := Some (length subs);
         hook_subs := subs ++ [sub]; hook_calls := hook_calls h;
         hook_unmounted := false |}.

Definition sub_unmount (h : SubscriptionHook) : SubscriptionHook :=
  {| hook_deps := hook_deps h; hook_current := None;
     hook_subs := run_cleanup h; hook_calls := hook_calls h;
     hook_unmounted := true |}.

(** The promise of run [i] settles, once; its handlers run. *)
Definition sub_on_settle (h : SubscriptionHook) (i : nat) (outcome : settled jsval)
  : SubscriptionHook :=
  match hook_subs h !! i with
  | Some sub =>
      match promise sub with
      | None =>
          {| hook_deps := hook_deps h; hook_current := hook_current h;
             hook_subs := <[i := sub_settle sub outcome]> (hook_subs h);
             hook_calls := hook_calls h ++ ((λ c, (i, c)) <$> on_settle sub outcome);
             hook_unmounted := hook_unmounted h |}
      | Some _ => h
      end
  | None => h
  end.

Definition sub_step (h : SubscriptionHook) (ev : SubscriptionEvent) : SubscriptionHook :=
  match ev with
  | SubRender pathAndArgs opts =>
      if hook_unmounted h then h else sub_render h pathAndArgs opts
  | SubUnmount => if hook_unmounted h then h else sub_unmount h
  | SubSettle i outcome => sub_on_settle h i outcome
  end.

Definition sub_run (h : SubscriptionHook) (evs : list SubscriptionEvent)
  : SubscriptionHook := foldl sub_step h evs.

(** The callback invocations of run [i]. *)
Definition calls_of (i : nat) (h : SubscriptionHook) : list Call :=
  snd <$> filter (λ c, c.1 = i) (hook_calls h).
End useSubscription.

(** ** [useLiveQuery] (source lines 155-198) *)

(** A cursor is any value ([TCursor] is [any]).  React compares the
    dependencies of an effect with [Object.is]: two primitives are the same
    when they are equal, two objects when they are one object.  So a cursor
    is a primitive value or the address of an object, and equality of
    cursors is [Object.is]. *)
Inductive cursor_val : Type :=
  | CPrim (p : prim)
  | CRef (addr : nat).

Coercion CPrim : prim >-> cursor_val.

Global Instance cursor_val_eq_dec : EqDecision cursor_val.
Proof. solve_decision. Defined.

(** [OutputWithCursor] (lines 30-33). *)
Record Item : Type := {
  cursor : cursor_val;
  data : jsval;
}.

Definition Batch : Type := list Item.

(** The hook in a component: the ref [currentCursor], the dependencies
    [[lastCursor]] of the last run of the effect ([None] before the first),
    [hook.data], the requests in flight for the key, every input that was
    handed to [client.subscriptionOnce], oldest first, and the number of
    times the effect has called [hook.refetch()]. *)
Record LiveQuery : Type := {
  mounted : bool;
  currentCursor : cursor_val;
  effectDeps : option cursor_val;
  hookData : option Batch;
  inflight : list jsval;
  requests : list jsval;
  refetchCalls : nat;
}.

(** [useRef(null)], nothing rendered yet. *)
Definition live_init : LiveQuery :=
  {| mounted := false; currentCursor := PNull; effectDeps := None;
     hookData := None; inflight := []; requests := []; refetchCalls := 0 |}.

(** What happens to the component: it mounts, on a cache that may hold
    data for the key and that decides whether to fetch on mount; the request
    in flight resolves with a batch; the request in flight fails, and the
    cache, which gets the options of the hook, retries or gives up; the
    caller forces a refetch through the [refetch] of the result; it renders
    again for another reason.  The path and the input stay the same, and
    the component stays mounted. *)
Inductive LiveEvent : Type :=
  | Mount (cached : option Batch) (fetchOnMount : bool)
  | Resolve (batch : Batch)
  | Fail (retry : bool)
  | Refetch
  | Rerender.

(** [lastItem] (lines 179-186): [raw[raw.length - 1]] is [undefined] for an
    empty array. *)
Definition lastItem (raw : option Batch) : option Item :=
  match raw with
  | None => None
  | Some raw => last raw
  end.

(** [lastItem?.data] and [lastItem?.cursor] (lines 188-189) *)
Definition exposed_data (s : LiveQuery) : jsval :=
  match lastItem (hookData s) with
  | Some item => data item
  | None => JUndefined
  end.

Definition lastCursor (s : LiveQuery) : cursor_val :=
  match lastItem (hookData s) with
  | Some item => cursor item
  | None => PUndefined
  end.

Section useLiveQuery.
(** The objects that the addresses of cursors stand for, and
    [const [path, userInput] = pathAndArgs]: the input is an object, given
    by its properties; the path is the same in every request and is left
    out of them. *)
Variable heap : nat → jsval.
Variable userInput : list (string * jsval).

(** A cursor as the value it is. *)
Definition cursor_value (c : cursor_val) : jsval :=
  match c with
  | CPrim p => JPrim p
  | CRef addr => heap addr
  end.

(** The query function (lines 172-176): the input it hands to
    [client.subscriptionOnce(path, ...)], read from the ref when it is
    called. *)
Definition live_request (s : LiveQuery) : jsval :=
  JObj (obj_set "cursor" (cursor_value (currentCursor s)) userInput).

(** The query function is called: a request leaves and is in flight. *)
Definition call_queryFn (s : LiveQuery) : LiveQuery :=
  {| mounted := mounted s; currentCursor := currentCursor s;
     effectDeps := effectDeps s; hookData := hookData s;
     inflight := [live_request s];
     requests := requests s ++ [live_request s];
     refetchCalls := refetchCalls s |}.

(** Modelled from the spec: the external cache store deduplicates the
    fetches for one key.  This is the fetch of the query behind [useQuery]
    and [hook.refetch()]: while a request for the key is in flight the
    cache hands back its promise and the query function is not called;
    otherwise the query function is called at once. *)
Definition rq_fetch (s : LiveQuery) : LiveQuery :=
  match inflight s with
  | [] => call_queryFn s
  | _ :: _ => s
  end.

(** The body of the effect (lines 192-193). *)
Definition live_effect (s : LiveQuery) : LiveQuery :=
  rq_fetch
    {| mounted := mounted s; currentCursor := lastCursor s;
       effectDeps := effectDeps s; hookData := hookData s;
       inflight := inflight s; requests := requests s;
       refetchCalls := S (refetchCalls s) |}.

(** Modelled from the spec: the lifecycle of the UI runtime.  React runs
    the effect after the first render, and after a render in which
    [lastCursor] is not the one of the previous run. *)
Definition effect_due (s : LiveQuery) : bool :=
  match effectDeps s with
  | None => true
  | Some c => bool_decide (c ≠ lastCursor s)
  end.

Definition commit (s : LiveQuery) : LiveQuery :=
  if effect_due s then
    live_effect
      {| mounted := mounted s; currentCursor := currentCursor s;
         effectDeps := Some (lastCursor s); hookData := hookData s;
         inflight := inflight s; requests := requests s;
         refetchCalls := refetchCalls s |}
  else s.

(** What an event does before the render that follows it.  On mount the
    cache may hold data for the key already, and the effect of [useQuery],
    which comes first, starts a fetch when the cache decides so.  The
    request in flight resolves with a batch, which becomes [hook.data].  Or
    it fails, which leaves [hook.data] as it is: when the cache retries, it
    calls the query function again, and when it gives up nothing is in
    flight any more. *)
Definition before_render (s : LiveQuery) (ev : LiveEvent) : LiveQuery :=
  match ev with
  | Mount cached fetchOnMount =>
      let s' :=
        {| mounted := true; currentCursor := currentCursor s;
           effectDeps := effectDeps s; hookData := cached;
           inflight := inflight s; requests := requests s;
           refetchCalls := refetchCalls s |} in
      if fetchOnMount then rq_fetch s' else s'
  | Resolve batch =>
      {| mounted := mounted s; currentCursor := currentCursor s;
         effectDeps := effectDeps s; hookData := Some batch;
         inflight := tail (inflight s); requests := requests s;
         refetchCalls := refetchCalls s |}
  | Fail retry =>
      if retry then call_queryFn s
      else
        {| mounted := mounted s; currentCursor := currentCursor s;
           effectDeps := effectDeps s; hookData := hookData s;
           inflight := tail (inflight s); requests := requests s;
           refetchCalls := refetchCalls s |}
  | Refetch => rq_fetch s
  | Rerender => s
  end.

(** An event applies to a component in the right state: [Mount] to one
    that is not mounted, the others to a mounted one, and a request
    settles only if one is in flight. *)
Definition applies (s : LiveQuery) (ev : LiveEvent) : bool :=
  match ev with
  | Mount _ _ => negb (mounted s)
  | Resolve _ | Fail _ => mounted s && bool_decide (inflight s ≠ [])
  | Refetch | Rerender => mounted s
  end.

Definition live_step (s : LiveQuery) (ev : LiveEvent) : LiveQuery :=
  if applies s ev then commit (before_render s ev) else s.

Definition live_run (s : LiveQuery) (evs : list LiveEvent) : LiveQuery :=
  foldl live_step s evs.

Definition live_reachable (s : LiveQuery) : Prop :=
  ∃ evs, s = live_run live_init evs.

(** The cursor of the last item of a batch. *)
Definition batch_cursor (b : Batch) : option cursor_val := cursor <$> last b.

(** The request that carries cursor [c]. *)
Definition request_with (c : cursor_val) : jsval :=
  JObj (obj_set "cursor" (cursor_value c) userInput).
End useLiveQuery.

(** ** Auxiliary notions of the statements *)

(** Whether a category reaches the key: it is given and it is truthy. *)
Definition category_given (extras : option string) : bool :=
  match extras with
  | Some e => truthy_str e
  | None => false
  end.

(** A transformer that is not the identity: it ships the queries in the
    opposite order. *)
Definition reversing_transformer : DataTransformer :=
  {| serialize st := {| mutations := mutations st; queries := reverse (queries st) |};
     deserialize st := {| mutations := mutations st; queries := reverse (queries st) |} |}.

(** Every callback invocation belongs to a run whose promise has
    settled. *)
Definition calls_settled (h : SubscriptionHook) : Prop :=
  ∀ j c, (j, c) ∈ hook_calls h →
    ∃ sub, hook_subs h !! j = Some sub ∧ is_Some (promise sub).

(** Run [i] is stopped and none of its callbacks has been invoked. *)
Definition stopped_silent (i : nat) (h : SubscriptionHook) : Prop :=
  (∃ sub, hook_subs h !! i = Some sub ∧ stopped sub = true) ∧ calls_of i h = [].

(** An effect run started with callbacks, torn down by an unmount, and a
    promise that resolves afterwards. *)
Definition chat_opts : SubscriptionOpts :=
  {| opt_enabled := None;
     opt_onError := Some (λ _, None);
     opt_onBatch := Some (λ _, None) |}.

Definition chat_args : PathAndArgs := ("chat.messages", [JObj [("room", JStr "a")]]).

(** What holds of every state the hook reaches. *)
Definition live_inv (s : LiveQuery) : Prop :=
  (mounted s = false → s = live_init)
  ∧ (mounted s = true →
       effectDeps s = Some (currentCursor s) ∧ currentCursor s = lastCursor s)
  ∧ (length (inflight s) ≤ 1)%nat.

(** The cursor of the last item of a batch, [undefined] when it has
    none. *)
Definition cursor_of (b : Batch) : cursor_val :=
  default (CPrim PUndefined) (batch_cursor b).



(** A chat room, its batches, and the run of the specification's example:
    cursors 1, 2, and 2 again. *)
Definition room_input : list (string * jsval) := [("room", JStr "a")].

Definition batch_at (z : Z) (payload : string) : Batch :=
  [{| cursor := PNum z; data := JArr [JStr payload] |}].

(** The objects behind the addresses in the examples. *)
Definition no_objects : nat → jsval := λ _, JObj [].

(** A request carries a cursor: it is the input with the property [cursor]
    set to that value, the other properties being those of the input; when
    the input has no [cursor] of its own, which its type says, the request
    is the input followed by the cursor. *)
Definition carries_cursor (userInput : list (string * jsval)) (c : jsval)
    (request : jsval) : Prop :=
  ∃ fields,
    request = JObj fields
    ∧ obj_get "cursor" fields = Some c
    ∧ (∀ k, k ≠ "cursor" → obj_get k fields = obj_get k userInput)
    ∧ ("cursor" ∉ userInput.*1 → fields = userInput ++ [("cursor", c)]).

(** The input position of a key as the specification names it: the first
    argument of the tuple, or [null] when there is none or when it is
    [undefined] or [null]. *)
Definition input_or_null (args : list jsval) : jsval :=
  match args with
  | [] | JPrim PUndefined :: _ | JPrim PNull :: _ => JNull
  | input :: _ => input
  end.

(** The input position of a key as its hash shows it. *)
Definition input_hash (args : list jsval) : jsval :=
  undefined_to_null (canon (input_or_null args)).

(** The categories of the hooks: a plain query, an infinite query, a live
    query.  A call of [getCacheKey] passes the tag of one of them, or
    nothing. *)
Inductive Category : Type :=
  | PlainQuery
  | InfiniteQuery
  | LiveQueryCategory.

Definition category_tag (c : Category) : string :=
  match c with
  | PlainQuery => CACHE_KEY_QUERY
  | InfiniteQuery => CACHE_KEY_INFINITE_QUERY
  | LiveQueryCategory => CACHE_KEY_LIVE_QUERY
  end.

Definition category_extras (c : option Category) : option string :=
  category_tag <$> c.

(** ** The remaining hooks and utilities *)

(** The truth value of a value in a condition: [undefined], [null],
    [false], [0] and the empty string are falsy, every array and object is
    truthy. *)
Definition truthy (v : jsval) : bool :=
  match v with
  | JPrim PUndefined | JPrim PNull => false
  | JPrim (PBool b) => b
  | JPrim (PNum z) => bool_decide (z ≠ 0)
  | JPrim (PStr s) => truthy_str s
  | JArr _ | JObj _ => true
  end.

(** [useInstance] (source lines 50-59).  The ref of [useRef()] starts at
    [undefined]; the count records the calls of the factory.  A render
    passes its factory [obj]; the hook returns the ref after the render and
    the instance it hands out. *)
Record InstanceRef : Type := {
  ref_current : jsval;
  obj_calls : nat;
}.

Definition instance_init : InstanceRef :=
  {| ref_current := JUndefined; obj_calls := 0 |}.

Definition useInstance (obj : unit → jsval) (ref : InstanceRef) : InstanceRef * jsval :=
  let ref :=
    if negb (truthy (ref_current ref))
    then {| ref_current := obj (); obj_calls := S (obj_calls ref) |}
    else ref in
  (ref, ref_current ref).

(** The renders of one component, each with the factory it passes: the ref
    at the end and the instances handed out, render by render. *)
Fixpoint useInstance_renders (objs : list (unit → jsval)) (ref : InstanceRef)
  : InstanceRef * list jsval :=
  match objs with
  | [] => (ref, [])
  | obj :: rest =>
      let '(ref', v) := useInstance obj ref in
      let '(ref'', vs) := useInstance_renders rest ref' in
      (ref'', v :: vs)
  end.

(** [_useInfiniteQuery] (source lines 267-287): the input of a page,
    [{ ...input, cursor: pageParam }], and the call the fetch function
    makes for it. *)
Definition useInfiniteQuery_actualInput (input : list (string * jsval))
    (pageParam : jsval) : list (string * jsval) :=
  obj_set "cursor" pageParam input.

Definition useInfiniteQuery_fetchFn {R : Type} (client_query : PathAndArgs → R)
    (path : string) (input : list (string * jsval)) (pageParam : jsval) : R :=
  let actualInput := useInfiniteQuery_actualInput input pageParam in
  client_query (path, [JObj actualInput]).

(** [useQueryUtils] (source lines 289-346). *)
Section useQueryUtils.
(** The cache primitives and [client.query]. *)
Variable api : QueryClientApi.
Variable client_query : PathAndArgs → settled jsval.

(** [prefetchQuery] (lines 293-309), with the default options. *)
Definition utils_prefetchQuery (queryClient : QueryClient) (pathAndArgs : PathAndArgs)
  : QueryClient * settled jsval :=
  let cacheKey := getCacheKey pathAndArgs (Some CACHE_KEY_QUERY) in
  qc_prefetchQuery api queryClient cacheKey (λ _, client_query pathAndArgs).
End useQueryUtils.

(** [invalidateQuery] (lines 310-316) and [cancelQuery] (lines 318-324):
    each hands the key without category to a primitive of the cache,
    [queryClient.invalidateQueries] or [queryClient.cancelQueries]. *)
Definition invalidateQuery {R : Type} (invalidateQueries : QueryKey → R)
    (pathAndArgs : PathAndArgs) : R :=
  let cacheKey := getCacheKey pathAndArgs None in
  invalidateQueries cacheKey.

Definition cancelQuery {R : Type} (cancelQueries : QueryKey → R)
    (pathAndArgs : PathAndArgs) : R :=
  let cacheKey := getCacheKey pathAndArgs None in
  cancelQueries cacheKey.

(** The category as the key sees it: the empty string counts as none. *)
Definition category_norm (extras : option string) : option string :=
  match extras with
  | Some e => if truthy_str e then Some e else None
  | None => None
  end.

(** In [useSubscription], at most one run of the effect is not stopped, and
    it is the one whose cleanup is registered. *)
Definition one_live_run (h : SubscriptionHook) : Prop :=
  (∀ i, hook_current h = Some i → (i < length (hook_subs h))%nat)
  ∧ (∀ i sub, hook_subs h !! i = Some sub → stopped sub = false → hook_current h = Some i).

(** Whether a render asks for the subscription. *)
Definition render_enabled (ev : SubscriptionEvent) : bool :=
  match ev with
  | SubRender _ opts => sub_enabled opts
  | _ => false
  end.

(** The callbacks one run of the effect may have invoked: [onBatch] at most
    once, [onError] at most once, and never [onError] before [onBatch]. *)
Definition calls_well_formed (cs : list Call) : Prop :=
  match cs with
  | [] | [OnBatch _] | [OnError _] | [OnBatch _; OnError _] => True
  | _ => False
  end.

(** The events of [useLiveQuery] after which a request may leave: a mount,
    a batch, a refetch forced by the caller, a failure that the cache
    retries. *)
Definition may_request (ev : LiveEvent) : bool :=
  match ev with
  | Mount _ _ | Resolve _ | Refetch | Fail true => true
  | Fail false | Rerender => false
  end.

(** The events of [useLiveQuery] after which the effect may have called
    [refetch]: a mount and a batch. *)
Definition may_refetch (ev : LiveEvent) : bool :=
  match ev with
  | Mount _ _ | Resolve _ => true
  | Fail _ | Refetch | Rerender => false
  end.

(** The cursor that an event brings: the one of the last item of the batch
    that the cache holds at mount, or of the batch that arrives. *)
Definition event_cursors (ev : LiveEvent) : list cursor_val :=
  match ev with
  | Mount (Some b) _ | Resolve b => [cursor_of b]
  | Mount None _ | Fail _ | Refetch | Rerender => []
  end.

(** The cursors of a state are among those of a list: the stored one, the
    one of the last item of the data, and those of the requests sent. *)
Definition live_cursors (heap : nat → jsval) (userInput : list (string * jsval))
    (known : list cursor_val) (s : LiveQuery) : Prop :=
  currentCursor s ∈ known
  ∧ lastCursor s ∈ known
  ∧ ∀ r, r ∈ requests s → ∃ c, c ∈ known ∧ r = request_with heap userInput c.

(** A caller whose [onBatch] throws. *)
Definition throwing_opts : SubscriptionOpts :=
  {| opt_enabled := Some true;
     opt_onError := Some (λ _, None);
     opt_onBatch := Some (λ _, Some (JStr "bad batch")) |}.

(** * Properties *)

(** ** Values and keys *)

Lemma deep_equal_refl (v : jsval) : deep_equal v v.
Proof.
  induction v as [p | l IH | fs IH] using jsval_nested_ind.
  - constructor.
  - constructor. induction IH; constructor; auto.
  - constructor. intros k.
    induction IH as [| [k' x] fs Hx _ IHfs]; simpl; [constructor |].
    case_decide; [by constructor | done].
Qed.

Lemma deep_equal_nullish (v w : jsval) : deep_equal v w → nullish v = nullish w.
Proof. by inversion 1. Qed.

Lemma deep_equal_coalesce (v w d : jsval) :
  deep_equal v w → deep_equal (v ?? d) (w ?? d).
Proof.
  intros H. unfold nullish_coalesce. rewrite <- (deep_equal_nullish v w H).
  destruct (nullish v); [apply deep_equal_refl | done].
Qed.

Lemma key_equal_refl (k : QueryKey) : key_equal k k.
Proof. induction k; constructor; auto using deep_equal_refl. Qed.

Lemma deep_equal_str_inv (s1 s2 : string) : deep_equal (JStr s1) (JStr s2) → s1 = s2.
Proof. by inversion 1. Qed.

(** The key without category, and what a category adds. *)
Lemma getCacheKey_unfold (pathAndArgs : PathAndArgs) (extras : option string) :
  getCacheKey pathAndArgs extras =
    [JStr pathAndArgs.1; tuple_input pathAndArgs ?? JNull]
      ++ match extras with
         | Some e => if truthy_str e then [JStr e] else []
         | None => []
         end.
Proof. unfold getCacheKey. destruct extras as [e |]; [by destruct (truthy_str e) | done]. Qed.

Example getCacheKey_query :
  getCacheKey ("user.get", [JObj [("id", JNum 7)]]) (Some CACHE_KEY_QUERY)
  = [JStr "user.get"; JObj [("id", JNum 7)]; JStr "TRPC_QUERY"].
Proof. reflexivity. Qed.

Example getCacheKey_no_input_no_category :
  getCacheKey ("post.all", []) None = [JStr "post.all"; JNull].
Proof. reflexivity. Qed.

(** The empty string is not a category of the hooks: were it passed, it
    would be dropped like a category that is left out. *)
Lemma getCacheKey_falsy_categories_collide :
  Some "" ≠ (None : option string) ∧
  getCacheKey ("user.get", [JObj [("id", JNum 7)]]) (Some "") =
  getCacheKey ("user.get", [JObj [("id", JNum 7)]]) None.
Proof. split; [done | reflexivity]. Qed.

(** Keys for any optional string: equal path, deep-equal input and equal
    string give structurally equal keys; and the keys differ, whatever path
    and input are, when the strings differ and at least one of them is not
    empty. *)
Lemma getCacheKey_equal_and_distinct (pa1 pa2 : PathAndArgs) (c1 c2 : option string) :
  (pa1.1 = pa2.1 → deep_equal (tuple_input pa1) (tuple_input pa2) → c1 = c2 →
     key_equal (getCacheKey pa1 c1) (getCacheKey pa2 c2))
  ∧ (c1 ≠ c2 → category_given c1 = true ∨ category_given c2 = true →
     ¬ key_equal (getCacheKey pa1 c1) (getCacheKey pa2 c2)).
Proof.
  split.
  - intros Hp Hi ->. rewrite !getCacheKey_unfold, Hp.
    apply Forall2_app; [| apply key_equal_refl].
    repeat constructor. by apply deep_equal_coalesce.
  - intros Hne Hgiven Heq. rewrite !getCacheKey_unfold in Heq.
    apply Forall2_app_inv in Heq as [_ Heq]; [| done].
    destruct c1 as [e1 |], c2 as [e2 |]; simpl in *;
      try destruct (truthy_str e1); try destruct (truthy_str e2);
      try (by inversion Heq); try (by destruct Hgiven).
    inversion Heq as [| ? ? ? ? Hs _]; subst.
    apply deep_equal_str_inv in Hs. congruence.
Qed.

(** C5: for the categories that the calls of [getCacheKey] pass (the tag of
    a plain, an infinite or a live query, or nothing), equal path,
    deep-equal input and equal category give structurally equal keys, and
    different categories give different keys, whatever path and input
    are. *)
Theorem getCacheKey_category_separates (pa1 pa2 : PathAndArgs) (c1 c2 : option Category) :
  (pa1.1 = pa2.1 → deep_equal (tuple_input pa1) (tuple_input pa2) → c1 = c2 →
     key_equal (getCacheKey pa1 (category_extras c1)) (getCacheKey pa2 (category_extras c2)))
  ∧ (c1 ≠ c2 →
     ¬ key_equal (getCacheKey pa1 (category_extras c1))
         (getCacheKey pa2 (category_extras c2))
     ∧ getCacheKey pa1 (category_extras c1) ≠ getCacheKey pa2 (category_extras c2)).
Proof.
  split.
  - intros Hp Hi ->. by apply getCacheKey_equal_and_distinct.
  - intros Hne.
    assert (Hk : ¬ key_equal (getCacheKey pa1 (category_extras c1))
                   (getCacheKey pa2 (category_extras c2))).
    { apply getCacheKey_equal_and_distinct.
      - destruct c1 as [[] |], c2 as [[] |]; try (exfalso; congruence); by cbv.
      - destruct c1 as [[] |], c2 as [[] |]; try (exfalso; congruence);
          first [by left | by right]. }
    split; [done |]. intros Heq. apply Hk. rewrite Heq. apply key_equal_refl.
Qed.

Lemma getCacheKey_category_separates_witness :
  key_equal
    (getCacheKey ("user.get", [JObj [("id", JNum 7); ("full", JPrim (PBool true))]])
       (Some "TRPC_QUERY"))
    (getCacheKey ("user.get", [JObj [("full", JPrim (PBool true)); ("id", JNum 7)]])
       (Some "TRPC_QUERY"))
  ∧ ¬ key_equal
    (getCacheKey ("user.get", [JObj [("id", JNum 7)]]) (Some "TRPC_QUERY"))
    (getCacheKey ("user.get", [JObj [("id", JNum 7)]]) (Some "TRPC_INFINITE_QUERY"))
  ∧ ¬ key_equal
    (getCacheKey ("user.get", [JObj [("id", JNum 7)]]) (Some "TRPC_LIVE_QUERY"))
    (getCacheKey ("user.get", [JObj [("id", JNum 7)]]) None).
Proof.
  split; [| split].
  - apply (proj1 (getCacheKey_category_separates
                    ("user.get", [JObj [("id", JNum 7); ("full", JPrim (PBool true))]])
                    ("user.get", [JObj [("full", JPrim (PBool true)); ("id", JNum 7)]])
                    (Some PlainQuery) (Some PlainQuery))); [reflexivity | | reflexivity].
    constructor. intros k. simpl. repeat case_decide; simplify_eq; repeat constructor.
  - apply (proj2 (getCacheKey_category_separates
                    ("user.get", [JObj [("id", JNum 7)]]) ("user.get", [JObj [("id", JNum 7)]])
                    (Some PlainQuery) (Some InfiniteQuery))). discriminate.
  - apply (proj2 (getCacheKey_category_separates
                    ("user.get", [JObj [("id", JNum 7)]]) ("user.get", [JObj [("id", JNum 7)]])
                    (Some LiveQueryCategory) None)). discriminate.
Defined.

(** C6: leaving the input out and passing [undefined] yield the same key,
    and that key holds [null] in the input position. *)
Theorem getCacheKey_input_omitted (path : string) (extras : option string) :
  getCacheKey (path, []) extras = getCacheKey (path, [JUndefined]) extras
  ∧ getCacheKey (path, []) extras !! 1%nat = Some JNull.
Proof.
  rewrite !getCacheKey_unfold. split; reflexivity.
Qed.

(** ** The facade and the client hooks *)

(** Reading and writing the cache through keys. *)
Ltac cache_fold :=
  repeat match goal with
    | |- context [cache_lookup ?k ?qc] =>
        change (cache_lookup k qc) with (@lookup QueryKey jsval QueryCache _ k qc)
    | |- context [cache_insert ?k ?d ?qc] =>
        change (cache_insert k d qc) with (@insert QueryKey jsval QueryCache _ k d qc)
    | |- context [cache_empty] =>
        change cache_empty with (@empty QueryCache _)
    end.

Lemma cache_lookup_insert (qc : QueryClient) (k k' : QueryKey) (d : jsval) :
  (<[k := d]> qc : QueryClient) !! k' =
    if decide (query_hash k = query_hash k') then Some d else qc !! k'.
Proof. unfold lookup, insert, cache_lookup, cache_insert. simpl. apply lookup_insert. Qed.

Lemma cache_lookup_insert_eq (qc : QueryClient) (k : QueryKey) (d : jsval) :
  (<[k := d]> qc : QueryClient) !! k = Some d.
Proof. rewrite cache_lookup_insert. by rewrite decide_True. Qed.

Lemma cache_lookup_insert_ne (qc : QueryClient) (k k' : QueryKey) (d : jsval) :
  query_hash k ≠ query_hash k' → (<[k := d]> qc : QueryClient) !! k' = qc !! k'.
Proof. intros H. rewrite cache_lookup_insert. by rewrite decide_False. Qed.

Lemma cache_lookup_empty (k : QueryKey) : (∅ : QueryClient) !! k = None.
Proof. unfold lookup, cache_lookup. apply lookup_empty. Qed.

Lemma cache_eq (qc1 qc2 : QueryClient) :
  cache_entries qc1 = cache_entries qc2 → qc1 = qc2.
Proof. destruct qc1, qc2. simpl. by intros ->. Qed.

(** C7: [prefetchQuery] of the facade stores under the key that [useQuery]
    derives, and [prefetchInfiniteQuery] under the key that
    [useInfiniteQuery] derives, so that what a successful direct call
    returned is found under the key of the client hook. *)
Theorem ssr_prefetch_keys_match (pathAndArgs : PathAndArgs) :
  ssr_prefetchQuery_cacheKey pathAndArgs = useQuery_cacheKey pathAndArgs
  ∧ ssr_prefetchInfiniteQuery_cacheKey pathAndArgs = useInfiniteQuery_cacheKey pathAndArgs
  ∧ ∀ (caller_query : PathAndArgs → settled jsval) (qc : QueryClient) (d : jsval),
      caller_query pathAndArgs = Fulfilled d →
      (ssr_prefetchQuery react_query caller_query qc pathAndArgs).1
        !! useQuery_cacheKey pathAndArgs = Some d
      ∧ (ssr_prefetchInfiniteQuery react_query caller_query qc pathAndArgs).1
        !! useInfiniteQuery_cacheKey pathAndArgs = Some (infinite_data d).
Proof.
  split; [reflexivity |]. split; [reflexivity |].
  intros caller_query qc d Hd.
  unfold ssr_prefetchQuery, ssr_prefetchInfiniteQuery, ssr_fetchFn; simpl.
  unfold rq_prefetchQuery, rq_prefetchInfiniteQuery. rewrite Hd. simpl.
  split; apply cache_lookup_insert_eq.
Qed.

Lemma ssr_prefetch_keys_match_witness :
  (ssr_prefetchQuery react_query (λ _, Fulfilled (JStr "ada")) ∅
     ("user.get", [JObj [("id", JNum 7)]])).1
    !! useQuery_cacheKey ("user.get", [JObj [("id", JNum 7)]]) = Some (JStr "ada").
Proof.
  apply (proj2 (proj2 (ssr_prefetch_keys_match ("user.get", [JObj [("id", JNum 7)]])))
           (λ _, Fulfilled (JStr "ada")) ∅ (JStr "ada")).
  reflexivity.
Defined.

Lemma rq_hydrate_dehydrate_lookup (client server : QueryClient) (k : QueryKey) :
  client !! k = None →
  rq_hydrate client (rq_dehydrate server None) !! k = server !! k.
Proof.
  unfold lookup, cache_lookup. intros Hk. unfold rq_hydrate, rq_dehydrate; simpl.
  rewrite list_to_map_to_list. by apply lookup_union_r.
Qed.

(** What a client cache, hydrated from the snapshot of a cache into which
    [prefetchQuery] stored a value, shows to [useQuery]. *)
Lemma useQuery_after_prefetch_and_hydration
    (caller_query : PathAndArgs → settled jsval) (qc client : QueryClient)
    (pathAndArgs : PathAndArgs) (d : jsval) (stale : bool) :
  caller_query pathAndArgs = Fulfilled d →
  client !! useQuery_cacheKey pathAndArgs = None →
  useQuery stale
    (rq_hydrate client
       (rq_dehydrate (ssr_prefetchQuery react_query caller_query qc pathAndArgs).1 None))
    pathAndArgs
  = {| result_data := Some d; rpc_calls := if stale then [pathAndArgs] else [] |}.
Proof.
  intros Hd Hclient. unfold useQuery, rq_useQuery.
  rewrite rq_hydrate_dehydrate_lookup by done.
  unfold ssr_prefetchQuery, ssr_fetchFn. cbn [qc_prefetchQuery react_query].
  unfold rq_prefetchQuery. rewrite Hd. cbn [await fst].
  change (ssr_prefetchQuery_cacheKey pathAndArgs) with (useQuery_cacheKey pathAndArgs).
  by rewrite cache_lookup_insert_eq.
Qed.

(** C8, as the specification states it, fails for an entry that is stale
    when the hook mounts, which with the default [staleTime] of zero is
    every entry: the hook shows the prefetched value and calls the server
    all the same. *)
Lemma dehydrate_round_trip_stale_entry_refetches :
  useDehydratedState reversing_transformer
    (Some (ssr_dehydrate reversing_transformer
             (ssr_prefetchQuery react_query (λ _, Fulfilled (JStr "ada")) ∅
                ("user.get", [JObj [("id", JNum 7)]])).1 None))
  = Some (rq_dehydrate
            (ssr_prefetchQuery react_query (λ _, Fulfilled (JStr "ada")) ∅
               ("user.get", [JObj [("id", JNum 7)]])).1 None)
  ∧ useQuery true
      (rq_hydrate ∅
         (rq_dehydrate
            (ssr_prefetchQuery react_query (λ _, Fulfilled (JStr "ada")) ∅
               ("user.get", [JObj [("id", JNum 7)]])).1 None))
      ("user.get", [JObj [("id", JNum 7)]])
    = {| result_data := Some (JStr "ada");
         rpc_calls := [("user.get", [JObj [("id", JNum 7)]])] |}.
Proof.
  split.
  - unfold useDehydratedState, ssr_dehydrate, reversing_transformer; simpl.
    by rewrite reverse_involutive.
  - by apply useQuery_after_prefetch_and_hydration.
Qed.

(** C8 (amended): with a transformer whose [deserialize] undoes
    [serialize], [useDehydratedState(ssr.dehydrate(opts))] is the dehydrated
    state of the cache; and once [prefetchQuery] has stored the value of the
    direct call, a client cache hydrated from that round trip makes
    [useQuery] for the same path and input show this value at once.  The
    hook starts no call while the entry is fresh; for a stale entry it
    calls the server in the background. *)
Theorem dehydrate_round_trip (tr : DataTransformer) :
  (∀ st, deserialize tr (serialize tr st) = st) →
  ∀ (qc : QueryClient) (opts : option DehydrateOptions),
    useDehydratedState tr (Some (ssr_dehydrate tr qc opts)) = Some (rq_dehydrate qc opts)
    ∧ ∀ (caller_query : PathAndArgs → settled jsval) (pathAndArgs : PathAndArgs)
        (d : jsval) (client : QueryClient) (snapshot : DehydratedState) (stale : bool),
        caller_query pathAndArgs = Fulfilled d →
        client !! useQuery_cacheKey pathAndArgs = None →
        useDehydratedState tr
          (Some (ssr_dehydrate tr
                   (ssr_prefetchQuery react_query caller_query qc pathAndArgs).1 None))
          = Some snapshot →
        useQuery stale (rq_hydrate client snapshot) pathAndArgs =
          {| result_data := Some d;
             rpc_calls := if stale then [pathAndArgs] else [] |}.
Proof.
  intros Hinv qc opts. split.
  - unfold useDehydratedState, ssr_dehydrate. by rewrite Hinv.
  - intros caller_query pathAndArgs d client snapshot stale Hd Hclient Hsnap.
    unfold useDehydratedState, ssr_dehydrate in Hsnap. rewrite Hinv in Hsnap.
    injection Hsnap as <-.
    by apply useQuery_after_prefetch_and_hydration.
Qed.

Lemma dehydrate_round_trip_witness :
  useQuery false
    (rq_hydrate ∅
       (rq_dehydrate
          (ssr_prefetchQuery react_query (λ _, Fulfilled (JStr "ada")) ∅
             ("user.get", [JObj [("id", JNum 7)]])).1 None))
    ("user.get", [JObj [("id", JNum 7)]])
  = {| result_data := Some (JStr "ada"); rpc_calls := [] |}.
Proof.
  assert (Hinv : ∀ st, deserialize reversing_transformer
                         (serialize reversing_transformer st) = st).
  { intros [ms qs]. unfold reversing_transformer; simpl. by rewrite reverse_involutive. }
  refine (proj2 (dehydrate_round_trip reversing_transformer Hinv ∅ None)
            (λ _, Fulfilled (JStr "ada")) ("user.get", [JObj [("id", JNum 7)]])
            (JStr "ada") ∅ _ false _ _ _).
  - reflexivity.
  - reflexivity.
  - exact (proj1 (dehydrate_round_trip reversing_transformer Hinv _ None)).
Defined.

(** C9, as the specification states it, fails with the cache the hooks are
    built on: react-query's prefetch primitives never reject, so the promise
    of the facade is fulfilled although the direct call failed. *)
Lemma ssr_prefetch_failure_is_not_reported :
  ssr_prefetchQuery react_query (λ _, Rejected (JStr "NOT_FOUND")) ∅
    ("user.get", [JObj [("id", JNum 7)]]) = (∅, Fulfilled JUndefined)
  ∧ ssr_prefetchInfiniteQuery react_query (λ _, Rejected (JStr "NOT_FOUND")) ∅
    ("user.get", [JObj [("id", JNum 7)]]) = (∅, Fulfilled JUndefined).
Proof. split; reflexivity. Qed.

(** C9 (amended): when the direct call fails, the fetch function that the
    facade hands to the prefetch primitive of the cache rejects with that
    failure, and the facade returns what the primitive returns for the
    derived key and that fetch function, adding no handler of its own; with
    react-query's primitives this is a fulfilled promise and an unchanged
    cache. *)
Theorem ssr_prefetch_failure (api : QueryClientApi)
    (caller_query : PathAndArgs → settled jsval) (qc : QueryClient)
    (pathAndArgs : PathAndArgs) (e : jsval) :
  caller_query pathAndArgs = Rejected e →
  ssr_fetchFn caller_query pathAndArgs () = Rejected e
  ∧ ssr_prefetchQuery api caller_query qc pathAndArgs =
      qc_prefetchQuery api qc (useQuery_cacheKey pathAndArgs) (λ _, Rejected e)
  ∧ ssr_prefetchInfiniteQuery api caller_query qc pathAndArgs =
      qc_prefetchInfiniteQuery api qc (useInfiniteQuery_cacheKey pathAndArgs)
        (λ _, Rejected e)
  ∧ ssr_prefetchQuery react_query caller_query qc pathAndArgs = (qc, Fulfilled JUndefined)
  ∧ ssr_prefetchInfiniteQuery react_query caller_query qc pathAndArgs
      = (qc, Fulfilled JUndefined).
Proof.
  intros He.
  unfold ssr_prefetchQuery, ssr_prefetchInfiniteQuery, ssr_fetchFn.
  rewrite He; simpl. unfold rq_prefetchQuery, rq_prefetchInfiniteQuery.
  repeat split; reflexivity.
Qed.

Lemma ssr_prefetch_failure_witness :
  ssr_fetchFn (λ _, Rejected (JStr "NOT_FOUND")) ("user.get", [JObj [("id", JNum 7)]]) ()
    = Rejected (JStr "NOT_FOUND").
Proof.
  refine (proj1 (ssr_prefetch_failure react_query (λ _, Rejected (JStr "NOT_FOUND")) ∅
                   ("user.get", [JObj [("id", JNum 7)]]) (JStr "NOT_FOUND") _)).
  reflexivity.
Defined.

Lemma tuple_input_or_null (path : string) (args : list jsval) :
  tuple_input (path, args) ?? JNull = input_or_null args.
Proof. by destruct args as [| [[] | |] args]. Qed.

Lemma getCacheKey_input_or_null (path : string) (args : list jsval) :
  getCacheKey (path, args) None = [JStr path; input_or_null args].
Proof. by destruct args as [| [[] | |] args]. Qed.

Lemma query_hash_category_ne (p1 p2 i1 i2 : jsval) (c1 c2 : string) :
  c1 ≠ c2 → query_hash [p1; i1; JStr c1] ≠ query_hash [p2; i2; JStr c2].
Proof.
  intros Hne. unfold query_hash. cbn [map canon undefined_to_null].
  intros [= _ _ ->]. done.
Qed.

(** C10: [setQueryData] writes the output under the key of the plain query
    and under the key of the infinite query, each made of the path, the
    input or [null], and the tag.  Every entry of the cache that is filed
    under another hash than these two is what it was; the entry of the live
    query for the same path and input is among those. *)
Theorem setQueryData_frame
    (qc : QueryClient) (path : string) (args : list jsval) (output : jsval) :
  let input := input_or_null args in
  let plain := [JStr path; input; JStr "TRPC_QUERY"] in
  let infinite := [JStr path; input; JStr "TRPC_INFINITE_QUERY"] in
  let live := [JStr path; input; JStr "TRPC_LIVE_QUERY"] in
  setQueryData qc (path, args) output !! plain = Some output
  ∧ setQueryData qc (path, args) output !! infinite = Some output
  ∧ (∀ k : QueryKey,
       query_hash k ≠ query_hash plain →
       query_hash k ≠ query_hash infinite →
       setQueryData qc (path, args) output !! k = qc !! k)
  ∧ (∀ k : QueryKey,
       query_hash k = query_hash plain ∨ query_hash k = query_hash infinite →
       setQueryData qc (path, args) output !! k = Some output)
  ∧ useLiveQuery_cacheKey (path, args) = live
  ∧ setQueryData qc (path, args) output !! live = qc !! live.
Proof.
  intros input plain infinite live.
  assert (Hne : query_hash infinite ≠ query_hash plain)
    by (by apply query_hash_category_ne).
  assert (Hset : ∀ k : QueryKey,
            setQueryData qc (path, args) output !! k =
              if decide (query_hash infinite = query_hash k) then Some output
              else if decide (query_hash plain = query_hash k) then Some output
              else qc !! k).
  { intros k. unfold setQueryData, rq_setQueryData.
    rewrite getCacheKey_input_or_null. cbn [app].
    by rewrite !cache_lookup_insert. }
  assert (Hframe : ∀ k : QueryKey,
            query_hash k ≠ query_hash plain →
            query_hash k ≠ query_hash infinite →
            setQueryData qc (path, args) output !! k = qc !! k).
  { intros k H1 H2. rewrite Hset. by rewrite !decide_False. }
  split; [| split; [| split; [| split; [| split]]]].
  - rewrite Hset. rewrite decide_False by done. by rewrite decide_True.
  - rewrite Hset. by rewrite decide_True.
  - exact Hframe.
  - intros k [Hk | Hk]; rewrite Hset.
    + rewrite decide_False by (by rewrite Hk). by rewrite decide_True.
    + by rewrite decide_True.
  - unfold useLiveQuery_cacheKey. rewrite getCacheKey_unfold.
    by rewrite tuple_input_or_null.
  - apply Hframe; by apply query_hash_category_ne.
Qed.

Lemma setQueryData_frame_witness :
  setQueryData (<[ [JStr "post.all"; JNull; JStr "TRPC_QUERY"] := JArr [] ]> ∅)
    ("user.get", [JNum 7]) (JStr "ada")
    !! [JStr "post.all"; JNull; JStr "TRPC_QUERY"] = Some (JArr [])
  ∧ setQueryData ∅ ("user.get", [JUndefined]) (JStr "ada")
      !! [JStr "user.get"; JNull; JStr "TRPC_INFINITE_QUERY"] = Some (JStr "ada").
Proof.
  split.
  - rewrite (proj1 (proj2 (proj2 (setQueryData_frame
               (<[ [JStr "post.all"; JNull; JStr "TRPC_QUERY"] := JArr [] ]> ∅)
               "user.get" [JNum 7] (JStr "ada"))))
             [JStr "post.all"; JNull; JStr "TRPC_QUERY"]).
    + apply cache_lookup_insert_eq.
    + by cbv.
    + by cbv.
  - exact (proj1 (proj2 (setQueryData_frame ∅ "user.get" [JUndefined] (JStr "ada")))).
Defined.

(** ** [useSubscription] *)

Section useSubscription_facts.
Variable hashQueryKey : list jsval → string.

Abbreviation step := (sub_step hashQueryKey).
Abbreviation run := (sub_run hashQueryKey).

Lemma run_cleanup_lookup (h : SubscriptionHook) (j : nat) (sub : Subscription) :
  hook_subs h !! j = Some sub →
  ∃ sub', run_cleanup h !! j = Some sub'
    ∧ promise sub' = promise sub
    ∧ (stopped sub = true → stopped sub' = true).
Proof.
  intros Hj. unfold run_cleanup. destruct (hook_current h) as [i |]; [| by eauto].
  destruct (decide (i = j)) as [-> | Hne].
  - exists (sub_cleanup sub). by rewrite list_lookup_alter_eq, Hj.
  - exists sub. by rewrite list_lookup_alter_ne.
Qed.

Lemma on_settle_stopped (sub : Subscription) (outcome : settled jsval) :
  stopped sub = true → on_settle sub outcome = [].
Proof.
  intros Hs. unfold on_settle, then_handler, catch_handler. rewrite Hs.
  by destruct outcome.
Qed.

Lemma filter_tagged (i j : nat) (cs : list Call) :
  filter (λ c : nat * Call, c.1 = i) ((λ c, (j, c)) <$> cs) =
    if decide (j = i) then (λ c, (j, c)) <$> cs else [].
Proof.
  induction cs as [| c cs IH]; [by case_decide |].
  rewrite fmap_cons, filter_cons, IH; simpl. by repeat case_decide.
Qed.

Lemma calls_of_nil_iff (i : nat) (h : SubscriptionHook) :
  calls_of i h = [] ↔ ∀ c, (i, c) ∉ hook_calls h.
Proof.
  unfold calls_of. split.
  - intros Hnil c Hin.
    assert (Hf : (i, c) ∈ filter (λ c : nat * Call, c.1 = i) (hook_calls h))
      by (by apply list_elem_of_filter).
    apply fmap_nil_inv in Hnil. rewrite Hnil in Hf. by apply not_elem_of_nil in Hf.
  - intros Hno. destruct (filter _ _) as [| [j c] l] eqn:E; [done |].
    assert (Hin : (j, c) ∈ filter (λ c : nat * Call, c.1 = i) (hook_calls h))
      by (rewrite E; left).
    apply list_elem_of_filter in Hin as [Hj Hin]. simpl in Hj. subst j.
    by apply Hno in Hin.
Qed.

Lemma calls_settled_step (h : SubscriptionHook) (ev : SubscriptionEvent) :
  calls_settled h → calls_settled (step h ev).
Proof.
  intros Hinv. destruct ev as [pa opts | | i outcome]; simpl.
  - destruct (hook_unmounted h); [done |]. unfold sub_render.
    case_decide; [done |].
    destruct (negb _); intros j c Hin; simpl in *;
      destruct (Hinv j c Hin) as (sub & Hj & Hp);
      destruct (run_cleanup_lookup h j sub Hj) as (sub' & Hj' & Hp' & _);
      exists sub'; rewrite Hp'; split; try done.
    by apply lookup_app_l_Some.
  - destruct (hook_unmounted h); [done |].
    intros j c Hin; simpl in *.
    destruct (Hinv j c Hin) as (sub & Hj & Hp).
    destruct (run_cleanup_lookup h j sub Hj) as (sub' & Hj' & Hp' & _).
    exists sub'. by rewrite Hp'.
  - unfold sub_on_settle.
    destruct (hook_subs h !! i) as [sub |] eqn:Hi; [| done].
    destruct (promise sub) eqn:Hp; [done |].
    intros j c Hin; simpl in *.
    destruct (decide (j = i)) as [-> | Hne].
    + exists (sub_settle sub outcome). split; [| by eexists].
      apply list_lookup_insert_eq. by eapply lookup_lt_Some.
    + rewrite list_lookup_insert_ne by done.
      apply elem_of_app in Hin as [Hin | Hin]; [by apply Hinv in Hin |].
      apply list_elem_of_fmap in Hin as (c' & Heq & _). congruence.
Qed.

Lemma calls_settled_run (evs : list SubscriptionEvent) (h : SubscriptionHook) :
  calls_settled h → calls_settled (run h evs).
Proof.
  revert h. induction evs as [| ev evs IH]; intros h Hinv; simpl; [done |].
  by apply IH, calls_settled_step.
Qed.

Lemma stopped_silent_step (i : nat) (h : SubscriptionHook) (ev : SubscriptionEvent) :
  stopped_silent i h → stopped_silent i (step h ev).
Proof.
  intros [(sub & Hi & Hs) Hcalls]. destruct ev as [pa opts | | j outcome]; simpl.
  - destruct (hook_unmounted h); [by split; eauto |]. unfold sub_render.
    case_decide; [by split; eauto |].
    destruct (run_cleanup_lookup h i sub Hi) as (sub' & Hi' & _ & Hs').
    destruct (negb _); (split; [| done]); exists sub'; split; auto.
    simpl. by apply lookup_app_l_Some.
  - destruct (hook_unmounted h); [by split; eauto |].
    destruct (run_cleanup_lookup h i sub Hi) as (sub' & Hi' & _ & Hs').
    split; [| done]. exists sub'. auto.
  - unfold sub_on_settle.
    destruct (hook_subs h !! j) as [sub' |] eqn:Hj; [| by split; eauto].
    destruct (promise sub') eqn:Hp; [by split; eauto |].
    destruct (decide (j = i)) as [-> | Hne].
    + assert (sub' = sub) as -> by congruence.
      split.
      * exists (sub_settle sub outcome). split; [| done]. simpl.
        apply list_lookup_insert_eq. by eapply lookup_lt_Some.
      * unfold calls_of in *; simpl. rewrite on_settle_stopped by done.
        simpl. by rewrite app_nil_r.
    + split.
      * exists sub. simpl. by rewrite list_lookup_insert_ne.
      * unfold calls_of in *; simpl. rewrite filter_app, filter_tagged.
        rewrite decide_False by done. by rewrite app_nil_r.
Qed.

Lemma stopped_silent_run (i : nat) (evs : list SubscriptionEvent) (h : SubscriptionHook) :
  stopped_silent i h → stopped_silent i (run h evs).
Proof.
  revert h. induction evs as [| ev evs IH]; intros h Hinv; simpl; [done |].
  by apply IH, stopped_silent_step.
Qed.

(** C1: the cleanup of a run of the effect sets its [stopped] flag and
    cancels its promise, and with the flag set both handlers return at
    once.  Hence, once the cleanup has happened while the promise was
    pending, neither [onBatch] nor [onError] of that run is ever invoked,
    whatever happens afterwards and however the promise settles. *)
Theorem useSubscription_silent_after_cleanup
    (before after : list SubscriptionEvent) (i : nat) (sub : Subscription) :
  hook_subs (run subscription_init before) !! i = Some sub →
  stopped sub = true →
  promise sub = None →
  calls_of i (run (run subscription_init before) after) = []
  ∧ (∀ outcome, on_settle sub outcome = [])
  ∧ (∀ sub0, stopped (sub_cleanup sub0) = true ∧ cancelled (sub_cleanup sub0) = true).
Proof.
  intros Hi Hs Hp. split; [| split; [by intros; apply on_settle_stopped | done]].
  apply (stopped_silent_run i after). split; [by eauto |].
  apply calls_of_nil_iff. intros c Hin.
  assert (Hinv : calls_settled (run subscription_init before)).
  { apply calls_settled_run. intros j c' Hc. by apply not_elem_of_nil in Hc. }
  destruct (Hinv i c Hin) as (sub' & Hi' & Hp').
  assert (sub' = sub) as -> by congruence.
  rewrite Hp in Hp'. by destruct Hp'.
Qed.
End useSubscription_facts.

Lemma useSubscription_silent_after_cleanup_witness :
  calls_of 0
    (sub_run (λ _, "k")
       (sub_run (λ _, "k") subscription_init
          [SubRender chat_args (Some chat_opts); SubUnmount])
       [SubSettle 0 (Fulfilled (JArr [JStr "hello"]))]) = [].
Proof.
  refine (proj1 (useSubscription_silent_after_cleanup (λ _, "k")
           [SubRender chat_args (Some chat_opts); SubUnmount]
           [SubSettle 0 (Fulfilled (JArr [JStr "hello"]))] 0
           {| sub_path := "chat.messages"; sub_input := JObj [("room", JStr "a")];
              sub_opts := Some chat_opts; stopped := true; promise := None;
              cancelled := true |} _ _ _)); reflexivity.
Defined.

(** Without the cleanup the callbacks are invoked: the batch reaches
    [onBatch], a failure reaches [onError]. *)
Example useSubscription_delivers_batch :
  calls_of 0
    (sub_run (λ _, "k") subscription_init
       [SubRender chat_args (Some chat_opts);
        SubSettle 0 (Fulfilled (JArr [JStr "hello"]))])
  = [OnBatch (JArr [JStr "hello"])].
Proof. reflexivity. Qed.

Example useSubscription_delivers_error :
  calls_of 0
    (sub_run (λ _, "k") subscription_init
       [SubRender chat_args (Some chat_opts); SubSettle 0 (Rejected (JStr "boom"))])
  = [OnError (JStr "boom")].
Proof. reflexivity. Qed.

(** ** The cursor merged into an input *)

Lemma obj_get_set_eq (k : string) (v : jsval) (fields : list (string * jsval)) :
  obj_get k (obj_set k v fields) = Some v.
Proof.
  induction fields as [| [k' v'] fields IH]; cbn [obj_set obj_get].
  - by case_decide.
  - destruct (decide (k' = k)); cbn [obj_get]; by case_decide.
Qed.

Lemma obj_get_set_ne (k k' : string) (v : jsval) (fields : list (string * jsval)) :
  k' ≠ k → obj_get k' (obj_set k v fields) = obj_get k' fields.
Proof.
  intros Hne. induction fields as [| [k0 v0] fields IH]; cbn [obj_set obj_get].
  - case_decide; [by subst | done].
  - destruct (decide (k0 = k)); cbn [obj_get]; repeat case_decide; by simplify_eq.
Qed.

Lemma obj_set_keys (k : string) (v : jsval) (fields : list (string * jsval)) :
  (obj_set k v fields).*1 =
    if decide (k ∈ fields.*1) then fields.*1 else fields.*1 ++ [k].
Proof.
  induction fields as [| [k0 v0] fields IH]; cbn [obj_set].
  - rewrite decide_False; [done |]. apply not_elem_of_nil.
  - rewrite fmap_cons. cbn [fst].
    destruct (decide (k0 = k)) as [-> | Hne].
    + rewrite decide_True; [done |]. left.
    + rewrite fmap_cons, IH. cbn [fst].
      destruct (decide (k ∈ fields.*1)) as [Hin | Hnin].
      * rewrite decide_True; [done |]. by right.
      * rewrite decide_False; [done |]. rewrite elem_of_cons. intros [? | ?]; by simplify_eq.
Qed.

Lemma obj_set_fresh (k : string) (v : jsval) (fields : list (string * jsval)) :
  k ∉ fields.*1 → obj_set k v fields = fields ++ [(k, v)].
Proof.
  induction fields as [| [k0 v0] fields IH]; cbn [obj_set]; [done |].
  rewrite fmap_cons, not_elem_of_cons. cbn [fst]. intros [Hne Hnin].
  rewrite decide_False by done. by rewrite IH.
Qed.

Lemma obj_set_carries (k : string) (v : jsval) (fields : list (string * jsval)) :
  carries_cursor fields v (JObj (obj_set "cursor" v fields)).
Proof.
  exists (obj_set "cursor" v fields). split; [done |].
  split; [apply obj_get_set_eq |].
  split; [intros k' Hk'; by apply obj_get_set_ne | apply obj_set_fresh].
Qed.

(** ** [useLiveQuery] *)

Section useLiveQuery_facts.
Variable heap : nat → jsval.
Variable userInput : list (string * jsval).

Abbreviation lstep := (live_step heap userInput).
Abbreviation lrun := (live_run heap userInput).
Abbreviation request := (request_with heap userInput).

Ltac live_unfold :=
  unfold live_step, commit, effect_due, live_effect, applies,
    before_render, rq_fetch, call_queryFn, live_request, request_with,
    lastCursor, exposed_data in *;
  simpl in *.

Lemma request_carries (c : cursor_val) :
  carries_cursor userInput (cursor_value heap c) (request c).
Proof. apply (obj_set_carries "cursor"). Qed.

Lemma live_inv_init : live_inv live_init.
Proof. repeat split; simpl; try done. lia. Qed.

Lemma live_inv_step (s : LiveQuery) (ev : LiveEvent) :
  live_inv s → live_inv (lstep s ev).
Proof.
  intros (Hunm & Hm & Hfl). destruct s as [m c deps raw fl reqs n]; simpl in *.
  destruct m.
  - destruct (Hm eq_refl) as [-> Hc]. clear Hunm Hm.
    destruct ev as [cached fom | b | [] | |]; live_unfold; subst c;
      destruct fl as [| r [| r' fl]]; simpl in *; try lia;
      repeat case_bool_decide; simpl;
      repeat split; simpl; try done; try lia.
  - rewrite (Hunm eq_refl). clear.
    destruct ev as [cached fom | b | [] | |]; live_unfold; try apply live_inv_init.
    destruct fom; simpl; repeat split; simpl; try done; lia.
Qed.

Lemma live_inv_run (evs : list LiveEvent) (s : LiveQuery) :
  live_inv s → live_inv (lrun s evs).
Proof.
  revert s. induction evs as [| ev evs IH]; intros s Hs; simpl; [done |].
  by apply IH, live_inv_step.
Qed.

Lemma live_reachable_inv (s : LiveQuery) : live_reachable heap userInput s → live_inv s.
Proof. intros [evs ->]. apply live_inv_run, live_inv_init. Qed.

Lemma effect_not_due (s : LiveQuery) :
  effectDeps s = Some (lastCursor s) → commit heap userInput s = s.
Proof.
  intros H. unfold commit, effect_due. rewrite H.
  by rewrite bool_decide_eq_false_2 by (intros Hne; by apply Hne).
Qed.

Lemma lastCursor_batch (s : LiveQuery) (b : Batch) :
  hookData s = Some b → lastCursor s = cursor_of b.
Proof.
  intros H. unfold lastCursor, cursor_of, batch_cursor. rewrite H; simpl.
  by destruct (last b).
Qed.











End useLiveQuery_facts.


Example useLiveQuery_example_run :
  let s := live_run no_objects room_input live_init
             [Mount None true; Resolve (batch_at 1 "x"); Resolve (batch_at 2 "y");
              Resolve (batch_at 2 "y")] in
  requests s = [JObj [("room", JStr "a"); ("cursor", JNull)];
                JObj [("room", JStr "a"); ("cursor", JNum 1)];
                JObj [("room", JStr "a"); ("cursor", JNum 2)]]
  ∧ inflight s = []
  ∧ exposed_data s = JArr [JStr "y"].
Proof. repeat split. Qed.





(** * Further properties *)

(** ** Keys *)

Lemma truthy_str_category_norm (c : option string) (s : string) :
  category_norm c = Some s → c = Some s ∧ truthy_str s = true.
Proof.
  destruct c as [e |]; simpl; [| done].
  destruct (truthy_str e) eqn:E; [| done]. by intros [= <-].
Qed.

Lemma getCacheKey_norm (pathAndArgs : PathAndArgs) (extras : option string) :
  getCacheKey pathAndArgs extras =
    [JStr pathAndArgs.1; tuple_input pathAndArgs ?? JNull]
      ++ match category_norm extras with
         | Some e => [JStr e]
         | None => []
         end.
Proof.
  rewrite getCacheKey_unfold. destruct extras as [e |]; simpl; [| done].
  by destruct (truthy_str e).
Qed.

(** X1: two derived keys are equal exactly when the paths are equal, the
    inputs are equal once [undefined] and [null] are both read as [null],
    and the categories are equal once the empty string is read as no
    category. *)
Theorem getCacheKey_eq_iff (pa1 pa2 : PathAndArgs) (c1 c2 : option string) :
  getCacheKey pa1 c1 = getCacheKey pa2 c2
  ↔ pa1.1 = pa2.1
    ∧ tuple_input pa1 ?? JNull = tuple_input pa2 ?? JNull
    ∧ category_norm c1 = category_norm c2.
Proof.
  rewrite !getCacheKey_norm. split.
  - intros H. injection H as Hp Hi Hc. repeat split; [done.. |].
    destruct (category_norm c1), (category_norm c2); by simplify_eq.
  - intros (-> & -> & ->). done.
Qed.

(** X2: what [_useQuery] shows depends on the path and on the first
    argument only, up to [null]: tuples that differ in later arguments, or
    that pass [null], [undefined] or nothing as input, read the same entry
    of the cache.  When the entry is missing, the call to the server carries
    the whole tuple. *)
Theorem useQuery_first_argument_only
    (stale : bool) (qc : QueryClient) (path : string) (input : jsval)
    (rest rest' : list jsval) :
  result_data (useQuery stale qc (path, input :: rest))
    = result_data (useQuery stale qc (path, input :: rest'))
  ∧ result_data (useQuery stale qc (path, JNull :: rest))
      = result_data (useQuery stale qc (path, []))
  ∧ result_data (useQuery stale qc (path, JUndefined :: rest))
      = result_data (useQuery stale qc (path, []))
  ∧ (result_data (useQuery stale qc (path, input :: rest)) = None →
       rpc_calls (useQuery stale qc (path, input :: rest)) = [(path, input :: rest)]).
Proof.
  unfold useQuery, rq_useQuery, useQuery_cacheKey. rewrite !getCacheKey_norm.
  unfold tuple_input, nullish_coalesce. simpl.
  repeat split; by destruct (_ !! _).
Qed.

Lemma useQuery_first_argument_only_witness :
  rpc_calls (useQuery false ∅ ("post.byId", [JNum 1; JStr "full"]))
    = [("post.byId", [JNum 1; JStr "full"])].
Proof.
  apply (proj2 (proj2 (proj2 (useQuery_first_argument_only false ∅ "post.byId" (JNum 1)
                  [JStr "full"] [])))).
  reflexivity.
Defined.

(** X3: the key that [invalidateQuery] and [cancelQuery] hand to the cache
    is the pair of the path and the input (or [null]).  It is a prefix of
    every key derived for the same tuple, whatever the category, and it is a
    prefix of a key derived for another tuple only if that tuple has the
    same path and the same input up to [null]. *)
Theorem invalidateQuery_key_prefix {R : Type} (primitive : QueryKey → R)
    (pathAndArgs : PathAndArgs) :
  let key := [JStr pathAndArgs.1; tuple_input pathAndArgs ?? JNull] in
  invalidateQuery primitive pathAndArgs = primitive key
  ∧ cancelQuery primitive pathAndArgs = primitive key
  ∧ (∀ extras, key `prefix_of` getCacheKey pathAndArgs extras)
  ∧ (∀ pa' extras, key `prefix_of` getCacheKey pa' extras →
       pa'.1 = pathAndArgs.1
       ∧ tuple_input pa' ?? JNull = tuple_input pathAndArgs ?? JNull).
Proof.
  intros key. split; [done |]. split; [done |]. split.
  - intros extras. rewrite getCacheKey_norm. by apply prefix_app_r.
  - intros pa' extras [k Hk]. rewrite getCacheKey_norm in Hk.
    subst key. simpl in Hk. by injection Hk as -> ->.
Qed.

Lemma invalidateQuery_key_prefix_witness :
  "user.get" = "user.get"
  ∧ JObj [("id", JNum 7)] ?? JNull = JObj [("id", JNum 7)] ?? JNull.
Proof.
  refine (proj2 (proj2 (proj2 (invalidateQuery_key_prefix (λ k, k)
            ("user.get", [JObj [("id", JNum 7)]]))))
            ("user.get", [JObj [("id", JNum 7)]; JNum 1]) (Some CACHE_KEY_LIVE_QUERY) _).
  by exists [JStr CACHE_KEY_LIVE_QUERY].
Defined.

(** ** The cache utilities *)

(** Values that are deep-equal have the same canonical form, so keys that
    are structurally equal have the same hash. *)
Lemma list_to_map_obj_get (f : jsval → jsval) (fs : list (string * jsval)) (k : string) :
  (list_to_map (map (λ kv, (kv.1, f kv.2)) fs) : gmap string jsval) !! k
    = f <$> obj_get k fs.
Proof.
  induction fs as [| [k' v] fs IH]; cbn [map obj_get]; [apply lookup_empty |].
  rewrite list_to_map_cons, lookup_insert. cbn [fst snd].
  by destruct (decide (k' = k)).
Qed.

Lemma obj_get_elem (k : string) (fs : list (string * jsval)) (v : jsval) :
  obj_get k fs = Some v → (k, v) ∈ fs.
Proof.
  induction fs as [| [k' v'] fs IH]; cbn [obj_get]; [done |].
  case_decide; [intros [= ->]; subst; left | intros Hg; right; auto].
Qed.

Lemma canon_deep_equal (v : jsval) : ∀ w, deep_equal v w → canon v = canon w.
Proof.
  induction v as [p | l IH | fs IH] using jsval_nested_ind; intros w Hd;
    inversion Hd as [| l1 l2 Hl | f1 f2 Hf]; subst; cbn [canon].
  - done.
  - f_equal. clear Hd. revert IH.
    induction Hl as [| x y l k Hxy _ IHl]; intros IH; [done |].
    inversion IH as [| ? ? Hx Hrest]; subst. cbn [map].
    by rewrite (Hx y Hxy), (IHl Hrest).
  - do 3 f_equal. apply map_eq. intros k. rewrite !list_to_map_obj_get.
    specialize (Hf k).
    destruct (obj_get k fs) as [x |] eqn:E1, (obj_get k f2) as [y |] eqn:E2;
      inversion Hf as [? ? Hxy |]; subst; [| done].
    apply obj_get_elem in E1. rewrite Forall_forall in IH.
    simpl. f_equal. by apply (IH (k, x)).
Qed.

Lemma query_hash_key_equal (k1 k2 : QueryKey) :
  key_equal k1 k2 → query_hash k1 = query_hash k2.
Proof.
  induction 1 as [| x y k1 k2 Hxy _ IH]; [done |].
  unfold query_hash in *. cbn [map]. by rewrite (canon_deep_equal x y Hxy), IH.
Qed.

Lemma useQuery_cacheKey_hash_eq_iff (pa1 pa2 : PathAndArgs) :
  query_hash (useQuery_cacheKey pa1) = query_hash (useQuery_cacheKey pa2)
  ↔ pa1.1 = pa2.1 ∧ input_hash pa1.2 = input_hash pa2.2.
Proof.
  destruct pa1 as [p1 args1], pa2 as [p2 args2].
  unfold useQuery_cacheKey, input_hash. rewrite !getCacheKey_norm.
  rewrite !tuple_input_or_null. unfold query_hash. cbn. split.
  - by intros [= -> ->].
  - by intros [-> ->].
Qed.

Lemma input_hash_deep_equal (args1 args2 : list jsval) :
  deep_equal (input_or_null args1) (input_or_null args2) →
  input_hash args1 = input_hash args2.
Proof. intros H. unfold input_hash. by rewrite (canon_deep_equal _ _ H). Qed.

Lemma setQueryData_lookup (qc : QueryClient) (pa : PathAndArgs) (output : jsval)
    (k : QueryKey) :
  setQueryData qc pa output !! k =
    if decide (query_hash (useInfiniteQuery_cacheKey pa) = query_hash k) then Some output
    else if decide (query_hash (useQuery_cacheKey pa) = query_hash k) then Some output
    else qc !! k.
Proof.
  unfold setQueryData, rq_setQueryData.
  change (getCacheKey pa None ++ [JStr CACHE_KEY_INFINITE_QUERY])
    with (useInfiniteQuery_cacheKey pa).
  change (getCacheKey pa None ++ [JStr CACHE_KEY_QUERY]) with (useQuery_cacheKey pa).
  by rewrite !cache_lookup_insert.
Qed.

Lemma infinite_hash_ne_query_hash (pa1 pa2 : PathAndArgs) :
  query_hash (useInfiniteQuery_cacheKey pa1) ≠ query_hash (useQuery_cacheKey pa2).
Proof.
  unfold useInfiniteQuery_cacheKey, useQuery_cacheKey. rewrite !getCacheKey_norm.
  by apply query_hash_category_ne.
Qed.

(** X4: what [setQueryData] wrote is what [useQuery] shows at once, for
    every tuple with the same path and an input with the same hash, that
    is the same input up to [null] and up to the order in which the
    properties of objects are written; the hook calls the server only if
    the cache finds the entry stale.  For a tuple with another path or
    with an input of another hash [useQuery] shows what it showed
    before. *)
Theorem setQueryData_then_useQuery
    (stale : bool) (qc : QueryClient) (pa pa' : PathAndArgs) (output : jsval) :
  (pa'.1 = pa.1 → input_hash pa'.2 = input_hash pa.2 →
     useQuery stale (setQueryData qc pa output) pa'
       = {| result_data := Some output; rpc_calls := if stale then [pa'] else [] |})
  ∧ (pa'.1 = pa.1 → deep_equal (input_or_null pa'.2) (input_or_null pa.2) →
     useQuery stale (setQueryData qc pa output) pa'
       = {| result_data := Some output; rpc_calls := if stale then [pa'] else [] |})
  ∧ (pa'.1 ≠ pa.1 ∨ input_hash pa'.2 ≠ input_hash pa.2 →
     useQuery stale (setQueryData qc pa output) pa' = useQuery stale qc pa').
Proof.
  assert (Hhit : pa'.1 = pa.1 → input_hash pa'.2 = input_hash pa.2 →
            useQuery stale (setQueryData qc pa output) pa'
              = {| result_data := Some output;
                   rpc_calls := if stale then [pa'] else [] |}).
  { intros Hp Hi. unfold useQuery, rq_useQuery. rewrite setQueryData_lookup.
    rewrite decide_False by apply infinite_hash_ne_query_hash.
    rewrite decide_True; [done |]. by apply useQuery_cacheKey_hash_eq_iff. }
  split; [done |]. split.
  - intros Hp Hd. apply Hhit; [done |]. by apply input_hash_deep_equal.
  - intros Hne. unfold useQuery, rq_useQuery. rewrite setQueryData_lookup.
    rewrite decide_False by apply infinite_hash_ne_query_hash.
    rewrite decide_False; [done |].
    rewrite useQuery_cacheKey_hash_eq_iff. intros [Hp Hi].
    destruct Hne as [Hne | Hne]; by apply Hne.
Qed.

Lemma setQueryData_then_useQuery_witness :
  useQuery true (setQueryData ∅ ("post.all", []) (JArr [])) ("post.all", [JNull])
    = {| result_data := Some (JArr []); rpc_calls := [("post.all", [JNull])] |}
  ∧ useQuery true
      (setQueryData ∅ ("user.get", [JObj [("id", JNum 7); ("full", JNum 1)]]) (JStr "ada"))
      ("user.get", [JObj [("full", JNum 1); ("id", JNum 7)]])
    = {| result_data := Some (JStr "ada");
         rpc_calls := [("user.get", [JObj [("full", JNum 1); ("id", JNum 7)]])] |}
  ∧ useQuery true (setQueryData ∅ ("post.all", []) (JArr [])) ("post.byId", [JNum 1])
    = useQuery true ∅ ("post.byId", [JNum 1]).
Proof.
  split; [| split].
  - apply (proj1 (setQueryData_then_useQuery true ∅ ("post.all", []) ("post.all", [JNull])
                    (JArr []))); reflexivity.
  - apply (proj1 (proj2 (setQueryData_then_useQuery true ∅
                    ("user.get", [JObj [("id", JNum 7); ("full", JNum 1)]])
                    ("user.get", [JObj [("full", JNum 1); ("id", JNum 7)]]) (JStr "ada"))));
      [reflexivity |].
    constructor. intros k. simpl. repeat case_decide; simplify_eq; repeat constructor.
  - apply (proj2 (proj2 (setQueryData_then_useQuery true ∅ ("post.all", [])
                    ("post.byId", [JNum 1]) (JArr [])))). left. discriminate.
Defined.

(** X5: of two writes for the same path and for inputs with the same hash
    the later one stays, and writes for tuples with different paths, or
    with inputs of different hashes, do not depend on their order. *)
Theorem setQueryData_overwrite_and_commute
    (qc : QueryClient) (pa1 pa2 : PathAndArgs) (o1 o2 : jsval) :
  (pa1.1 = pa2.1 → input_hash pa1.2 = input_hash pa2.2 →
     setQueryData (setQueryData qc pa1 o1) pa2 o2 = setQueryData qc pa2 o2)
  ∧ (pa1.1 ≠ pa2.1 ∨ input_hash pa1.2 ≠ input_hash pa2.2 →
     setQueryData (setQueryData qc pa1 o1) pa2 o2
       = setQueryData (setQueryData qc pa2 o2) pa1 o1).
Proof.
  assert (Hhash : ∀ pa c,
            query_hash (getCacheKey pa None ++ [JStr c])
              = [JStr pa.1; input_hash pa.2; JStr c]).
  { intros [p args] c. by rewrite getCacheKey_input_or_null. }
  unfold setQueryData, rq_setQueryData, insert, cache_insert. cbn [cache_entries].
  rewrite !Hhash. split.
  - intros -> ->. apply cache_eq. cbn [cache_entries]. apply map_eq. intros k.
    rewrite !lookup_insert. by repeat case_decide.
  - intros Hne. apply cache_eq. cbn [cache_entries]. apply map_eq. intros k.
    rewrite !lookup_insert. repeat case_decide; simplify_eq; try done; tauto.
Qed.

Lemma setQueryData_overwrite_and_commute_witness :
  setQueryData (setQueryData ∅ ("post.all", []) (JArr [])) ("post.all", [JNull]) (JNum 1)
    = setQueryData ∅ ("post.all", [JNull]) (JNum 1)
  ∧ setQueryData (setQueryData ∅ ("post.all", []) (JArr [])) ("post.byId", [JNum 1]) (JNum 1)
    = setQueryData (setQueryData ∅ ("post.byId", [JNum 1]) (JNum 1)) ("post.all", []) (JArr []).
Proof.
  split.
  - apply (proj1 (setQueryData_overwrite_and_commute ∅ ("post.all", [])
                    ("post.all", [JNull]) (JArr []) (JNum 1))); reflexivity.
  - apply (proj2 (setQueryData_overwrite_and_commute ∅ ("post.all", [])
                    ("post.byId", [JNum 1]) (JArr []) (JNum 1))). left. discriminate.
Defined.

(** X6: [prefetchQuery] of the utilities stores the value of a successful
    call under the key of [useQuery], so that [useQuery] for the same tuple
    then shows it at once, and calls the server only if the cache finds the
    entry stale; after a failed call the cache is what it was.  Whenever
    [client.query] and the direct caller of the facade have the same
    outcome for a tuple, the prefetch of the utilities and the one of the
    facade do the same to a cache, whatever the primitives of the cache
    are. *)
Theorem utils_prefetchQuery_then_useQuery
    (client_query : PathAndArgs → settled jsval) (qc : QueryClient)
    (pathAndArgs : PathAndArgs) :
  (∀ d stale, client_query pathAndArgs = Fulfilled d →
     useQuery stale (utils_prefetchQuery react_query client_query qc pathAndArgs).1
       pathAndArgs
       = {| result_data := Some d; rpc_calls := if stale then [pathAndArgs] else [] |})
  ∧ (∀ e, client_query pathAndArgs = Rejected e →
     (utils_prefetchQuery react_query client_query qc pathAndArgs).1 = qc)
  ∧ (∀ api caller_query, caller_query pathAndArgs = client_query pathAndArgs →
     ssr_prefetchQuery api caller_query qc pathAndArgs
       = utils_prefetchQuery api client_query qc pathAndArgs).
Proof.
  unfold utils_prefetchQuery, ssr_prefetchQuery, ssr_fetchFn.
  cbn [qc_prefetchQuery react_query]. unfold rq_prefetchQuery. repeat split.
  - intros d stale ->. unfold useQuery, rq_useQuery. cbn [fst].
    change (getCacheKey pathAndArgs (Some CACHE_KEY_QUERY))
      with (useQuery_cacheKey pathAndArgs).
    by rewrite cache_lookup_insert_eq.
  - by intros e ->.
  - intros api caller_query ->.
    change (ssr_prefetchQuery_cacheKey pathAndArgs)
      with (getCacheKey pathAndArgs (Some CACHE_KEY_QUERY)).
    by destruct (client_query pathAndArgs).
Qed.

Lemma utils_prefetchQuery_then_useQuery_witness :
  useQuery true
    (utils_prefetchQuery react_query (λ _, Fulfilled (JStr "ada")) ∅
       ("user.get", [JObj [("id", JNum 7)]])).1
    ("user.get", [JObj [("id", JNum 7)]])
  = {| result_data := Some (JStr "ada");
       rpc_calls := [("user.get", [JObj [("id", JNum 7)]])] |}.
Proof.
  apply (proj1 (utils_prefetchQuery_then_useQuery (λ _, Fulfilled (JStr "ada")) ∅
                  ("user.get", [JObj [("id", JNum 7)]])) (JStr "ada") true).
  reflexivity.
Defined.

(** X7: the two prefetches of the facade do not collide.  After both have
    succeeded for one tuple, in either order, the cache holds the value
    under the key of [useQuery] and the one-page list under the key of
    [useInfiniteQuery]. *)
Theorem ssr_prefetches_coexist
    (caller_query : PathAndArgs → settled jsval) (qc : QueryClient)
    (pathAndArgs : PathAndArgs) (d : jsval) :
  caller_query pathAndArgs = Fulfilled d →
  let plain_first :=
    (ssr_prefetchInfiniteQuery react_query caller_query
       (ssr_prefetchQuery react_query caller_query qc pathAndArgs).1 pathAndArgs).1 in
  let infinite_first :=
    (ssr_prefetchQuery react_query caller_query
       (ssr_prefetchInfiniteQuery react_query caller_query qc pathAndArgs).1 pathAndArgs).1 in
  plain_first = infinite_first
  ∧ plain_first !! useQuery_cacheKey pathAndArgs = Some d
  ∧ plain_first !! useInfiniteQuery_cacheKey pathAndArgs = Some (infinite_data d).
Proof.
  intros Hd. unfold ssr_prefetchQuery, ssr_prefetchInfiniteQuery, ssr_fetchFn.
  cbn [qc_prefetchQuery qc_prefetchInfiniteQuery react_query].
  unfold rq_prefetchQuery, rq_prefetchInfiniteQuery. rewrite Hd. cbn [await fst].
  change (ssr_prefetchQuery_cacheKey pathAndArgs) with (useQuery_cacheKey pathAndArgs).
  change (ssr_prefetchInfiniteQuery_cacheKey pathAndArgs)
    with (useInfiniteQuery_cacheKey pathAndArgs).
  assert (Hne := infinite_hash_ne_query_hash pathAndArgs pathAndArgs).
  repeat split.
  - apply cache_eq. unfold insert, cache_insert. cbn [cache_entries].
    by apply insert_insert_ne.
  - rewrite cache_lookup_insert_ne by done. apply cache_lookup_insert_eq.
  - apply cache_lookup_insert_eq.
Qed.

Lemma ssr_prefetches_coexist_witness :
  (ssr_prefetchInfiniteQuery react_query (λ _, Fulfilled (JStr "ada"))
     (ssr_prefetchQuery react_query (λ _, Fulfilled (JStr "ada")) ∅
        ("user.get", [JObj [("id", JNum 7)]])).1
     ("user.get", [JObj [("id", JNum 7)]])).1
    !! useQuery_cacheKey ("user.get", [JObj [("id", JNum 7)]]) = Some (JStr "ada").
Proof.
  refine (proj1 (proj2 (ssr_prefetches_coexist (λ _, Fulfilled (JStr "ada")) ∅
                   ("user.get", [JObj [("id", JNum 7)]]) (JStr "ada") _))).
  reflexivity.
Defined.

(** X8: with a transformer whose [deserialize] undoes [serialize], an
    empty client cache hydrated from
    [useDehydratedState(ssr.dehydrate())] holds exactly the entries of the
    cache of the facade; and [useDehydratedState] leaves an absent snapshot
    absent, with no use of the transformer. *)
Theorem dehydrate_round_trip_whole_cache (tr : DataTransformer) (qc : QueryClient) :
  (∀ st, deserialize tr (serialize tr st) = st) →
  (∀ snapshot,
     useDehydratedState tr (Some (ssr_dehydrate tr qc None)) = Some snapshot →
     rq_hydrate ∅ snapshot = qc)
  ∧ useDehydratedState tr None = None.
Proof.
  intros Hinv. split; [| done]. intros snapshot.
  unfold useDehydratedState, ssr_dehydrate. rewrite Hinv. intros [= <-].
  apply cache_eq. unfold rq_hydrate, rq_dehydrate. cbn [cache_entries queries].
  rewrite list_to_map_to_list. apply (left_id_L ∅ (∪)).
Qed.

Lemma dehydrate_round_trip_whole_cache_witness :
  useDehydratedState reversing_transformer None = None.
Proof.
  refine (proj2 (dehydrate_round_trip_whole_cache reversing_transformer ∅ _)).
  intros [ms qs]. unfold reversing_transformer; simpl. by rewrite reverse_involutive.
Defined.

(** ** The page of an infinite query *)

(** X9: the page request of [_useInfiniteQuery] goes to the path of the
    hook with one argument, an object whose [cursor] is the page parameter
    (also when the input had a [cursor] of its own) and whose other
    properties are those of the input, in their order; [cursor] comes last
    when the input had none. *)
Theorem useInfiniteQuery_page_input {R : Type} (client_query : PathAndArgs → R)
    (path : string) (input : list (string * jsval)) (pageParam : jsval) :
  ∃ actualInput,
    useInfiniteQuery_fetchFn client_query path input pageParam
      = client_query (path, [JObj actualInput])
    ∧ obj_get "cursor" actualInput = Some pageParam
    ∧ (∀ k, k ≠ "cursor" → obj_get k actualInput = obj_get k input)
    ∧ actualInput.*1 =
        if decide ("cursor" ∈ input.*1) then input.*1 else input.*1 ++ ["cursor"].
Proof.
  exists (useInfiniteQuery_actualInput input pageParam).
  unfold useInfiniteQuery_fetchFn, useInfiniteQuery_actualInput.
  split; [done |]. split; [apply obj_get_set_eq |].
  split; [intros k Hk; by apply obj_get_set_ne | apply obj_set_keys].
Qed.

Lemma useInfiniteQuery_page_input_witness :
  ∃ actualInput,
    useInfiniteQuery_fetchFn (λ pa, pa) "post.list" [("limit", JNum 10)] (JNum 20)
      = ("post.list", [JObj actualInput])
    ∧ obj_get "cursor" actualInput = Some (JNum 20)
    ∧ (∀ k, k ≠ "cursor" → obj_get k actualInput = obj_get k [("limit", JNum 10)])
    ∧ actualInput.*1 = ["limit"; "cursor"].
Proof.
  exact (useInfiniteQuery_page_input (λ pa, pa) "post.list" [("limit", JNum 10)] (JNum 20)).
Defined.

(** ** [useInstance] *)

Lemma useInstance_renders_truthy (objs : list (unit → jsval)) (ref : InstanceRef) :
  truthy (ref_current ref) = true →
  useInstance_renders objs ref = (ref, replicate (length objs) (ref_current ref)).
Proof.
  intros Ht. induction objs as [| obj objs IH]; simpl; [done |].
  unfold useInstance. rewrite Ht. simpl. by rewrite IH.
Qed.

(** X11: the factory is called at every render until it returns a truthy
    instance, and never after: the renders before that hand out what their
    own factory returned, and all the later ones hand out that one
    instance, whatever factory they pass.  In particular a factory that
    returns a truthy instance at the first render is called exactly once. *)
Theorem useInstance_created_once
    (before after : list (unit → jsval)) (obj : unit → jsval) :
  Forall (λ f, truthy (f ()) = false) before →
  truthy (obj ()) = true →
  useInstance_renders (before ++ obj :: after) instance_init =
    ({| ref_current := obj (); obj_calls := S (length before) |},
     ((λ f, f ()) <$> before) ++ replicate (S (length after)) (obj ())).
Proof.
  intros Hbefore Hobj.
  assert (Hgen : ∀ ref, truthy (ref_current ref) = false →
            useInstance_renders (before ++ obj :: after) ref =
              ({| ref_current := obj (); obj_calls := S (obj_calls ref + length before) |},
               ((λ f, f ()) <$> before) ++ replicate (S (length after)) (obj ()))).
  { induction Hbefore as [| f before Hf _ IH]; intros ref Href.
    - cbn [app useInstance_renders]. unfold useInstance. rewrite Href. cbn.
      rewrite useInstance_renders_truthy by done. cbn.
      by rewrite Nat.add_0_r.
    - rewrite <- app_comm_cons. cbn [useInstance_renders].
      unfold useInstance at 1. rewrite Href. cbn [negb].
      rewrite IH by done. cbn. do 3 f_equal. lia. }
  by rewrite Hgen.
Qed.

Lemma useInstance_created_once_witness :
  useInstance_renders [(λ _, JObj []); (λ _, JObj [("fresh", JNum 1)])] instance_init =
    ({| ref_current := JObj []; obj_calls := 1 |}, [JObj []; JObj []]).
Proof.
  apply (useInstance_created_once [] [λ _, JObj [("fresh", JNum 1)]] (λ _, JObj []));
    [constructor | reflexivity].
Defined.

(** X12: a falsy instance is not kept.  While the factories return falsy
    values, each render calls its factory again and hands out its result, so
    the factory has been called as many times as the component has
    rendered. *)
Theorem useInstance_falsy_recreated (objs : list (unit → jsval)) :
  Forall (λ f, truthy (f ()) = false) objs →
  (useInstance_renders objs instance_init).2 = (λ f, f ()) <$> objs
  ∧ obj_calls (useInstance_renders objs instance_init).1 = length objs.
Proof.
  intros Hobjs.
  assert (Hgen : ∀ ref, truthy (ref_current ref) = false →
            (useInstance_renders objs ref).2 = (λ f, f ()) <$> objs
            ∧ obj_calls (useInstance_renders objs ref).1 = (obj_calls ref + length objs)%nat).
  { induction Hobjs as [| f objs Hf _ IH]; intros ref Href.
    - cbn. split; [done | lia].
    - cbn [useInstance_renders]. unfold useInstance. rewrite Href. cbn [negb].
      specialize (IH {| ref_current := f (); obj_calls := S (obj_calls ref) |} Hf).
      destruct (useInstance_renders objs _) as [ref' vs]. cbn in *.
      destruct IH as [-> ->]. split; [done | lia]. }
  by apply Hgen.
Qed.

Lemma useInstance_falsy_recreated_witness :
  obj_calls (useInstance_renders [(λ _, JNum 0); (λ _, JNum 0); (λ _, JStr "")]
               instance_init).1 = 3%nat.
Proof.
  refine (proj2 (useInstance_falsy_recreated
                   [(λ _, JNum 0); (λ _, JNum 0); (λ _, JStr "")] _)).
  repeat constructor.
Defined.

(** ** More on [useSubscription] *)

Section useSubscription_more.
Variable hashQueryKey : list jsval → string.

Abbreviation step := (sub_step hashQueryKey).
Abbreviation run := (sub_run hashQueryKey).

Lemma run_cleanup_length (h : SubscriptionHook) :
  length (run_cleanup h) = length (hook_subs h).
Proof. unfold run_cleanup. destruct (hook_current h); [apply length_alter | done]. Qed.

Lemma run_cleanup_all_stopped (h : SubscriptionHook) (i : nat) (sub : Subscription) :
  one_live_run h → run_cleanup h !! i = Some sub → stopped sub = true.
Proof.
  intros [_ Hlive] Hi. unfold run_cleanup in Hi.
  destruct (hook_current h) as [c |] eqn:Hc.
  - destruct (decide (c = i)) as [-> | Hne].
    + rewrite list_lookup_alter_eq in Hi.
      destruct (hook_subs h !! i); simplify_eq/=. done.
    + rewrite list_lookup_alter_ne in Hi by done.
      destruct (stopped sub) eqn:Hs; [done |].
      specialize (Hlive i sub Hi Hs). congruence.
  - destruct (stopped sub) eqn:Hs; [done |].
    specialize (Hlive i sub Hi Hs). congruence.
Qed.

Lemma one_live_run_step (h : SubscriptionHook) (ev : SubscriptionEvent) :
  one_live_run h → one_live_run (step h ev).
Proof.
  intros Hinv. destruct ev as [pa opts | | i outcome]; simpl.
  - destruct (hook_unmounted h); [done |]. unfold sub_render.
    case_decide; [done |]. destruct (negb _); split; simpl.
    + done.
    + intros i sub Hi Hs. by rewrite (run_cleanup_all_stopped h i sub) in Hs.
    + intros i [= <-]. rewrite length_app. simpl. lia.
    + intros i sub Hi Hs. apply lookup_app_Some in Hi as [Hi | [Hlen Hi]].
      * by rewrite (run_cleanup_all_stopped h i sub) in Hs.
      * apply list_lookup_singleton_Some in Hi as [Hi _]. f_equal. lia.
  - destruct (hook_unmounted h); [done |]. split; simpl; [done |].
    intros i sub Hi Hs. by rewrite (run_cleanup_all_stopped h i sub) in Hs.
  - unfold sub_on_settle.
    destruct (hook_subs h !! i) as [sub |] eqn:Hi; [| done].
    destruct (promise sub) eqn:Hp; [done |].
    destruct Hinv as [Hcur Hlive]. split; simpl.
    + intros c Hc. rewrite length_insert. by apply Hcur.
    + intros j sub' Hj Hs. destruct (decide (j = i)) as [-> | Hne].
      * rewrite list_lookup_insert_eq in Hj by (by eapply lookup_lt_Some).
        simplify_eq/=. by apply (Hlive i sub).
      * rewrite list_lookup_insert_ne in Hj by done. by apply (Hlive j sub').
Qed.

(** X13: whatever the renders, unmounts and settlements, at most one run
    of the effect is not stopped, and it is the run whose cleanup is
    registered: a change of key or of [enabled] and an unmount stop the
    previous run before anything else starts. *)
Theorem useSubscription_one_live_run (evs : list SubscriptionEvent) :
  one_live_run (run subscription_init evs)
  ∧ ∀ i j sub_i sub_j,
      hook_subs (run subscription_init evs) !! i = Some sub_i →
      hook_subs (run subscription_init evs) !! j = Some sub_j →
      stopped sub_i = false → stopped sub_j = false → i = j.
Proof.
  assert (Hinv : one_live_run (run subscription_init evs)).
  { assert (Hgen : ∀ h, one_live_run h → one_live_run (run h evs)).
    { induction evs as [| ev evs IH]; intros h Hh; simpl; [done |].
      by apply IH, one_live_run_step. }
    apply Hgen. split; simpl; [done |]. intros i sub Hi. by rewrite lookup_nil in Hi. }
  split; [done |]. intros i j sub_i sub_j Hi Hj Hsi Hsj.
  destruct Hinv as [_ Hlive].
  specialize (Hlive i sub_i Hi Hsi) as Hci. specialize (Hlive j sub_j Hj Hsj) as Hcj.
  congruence.
Qed.

(** X14: while every render passes [enabled: false], no subscription is
    ever started and no callback is invoked. *)
Theorem useSubscription_disabled (evs : list SubscriptionEvent) :
  Forall (λ ev, render_enabled ev = false) evs →
  hook_subs (run subscription_init evs) = []
  ∧ hook_calls (run subscription_init evs) = [].
Proof.
  intros Hevs.
  assert (Hgen : ∀ h, hook_subs h = [] → hook_current h = None → hook_calls h = [] →
            hook_subs (run h evs) = [] ∧ hook_calls (run h evs) = []).
  { induction Hevs as [| ev evs Hev _ IH]; intros h Hs Hc Hk; simpl; [done |].
    apply IH; destruct ev as [pa opts | | i outcome]; simpl in *;
      unfold sub_render, sub_unmount, sub_on_settle, run_cleanup;
      rewrite ?Hev, ?Hs, ?Hc, ?Hk; simpl;
      repeat (case_match; simpl); simplify_eq/=; try done. }
  by apply Hgen.
Qed.

Lemma on_settle_live (sub : Subscription) (outcome : settled jsval) :
  stopped sub = false →
  on_settle sub outcome =
    match outcome with
    | Fulfilled d =>
        match sub_opts sub ≫= opt_onBatch with
        | None => []
        | Some onBatch =>
            OnBatch d ::
            match onBatch d, sub_opts sub ≫= opt_onError with
            | Some thrown, Some _ => [OnError thrown]
            | _, _ => []
            end
        end
    | Rejected err =>
        match sub_opts sub ≫= opt_onError with
        | Some _ => [OnError err]
        | None => []
        end
    end.
Proof.
  intros Hs. unfold on_settle, then_handler, catch_handler, call_optional. rewrite Hs.
  destruct outcome as [d | err]; simpl.
  - destruct (sub_opts sub ≫= opt_onBatch) as [f |]; [| done].
    destruct (f d); [| done]. by destruct (sub_opts sub ≫= opt_onError).
  - by destruct (sub_opts sub ≫= opt_onError).
Qed.

Lemma on_settle_well_formed (sub : Subscription) (outcome : settled jsval) :
  calls_well_formed (on_settle sub outcome).
Proof.
  destruct (stopped sub) eqn:Hs.
  - by rewrite on_settle_stopped.
  - rewrite on_settle_live by done.
    destruct outcome; repeat (case_match; simpl); done.
Qed.

Lemma calls_of_settle (h : SubscriptionHook) (i j : nat) (sub : Subscription)
    (outcome : settled jsval) :
  hook_subs h !! i = Some sub →
  promise sub = None →
  calls_of j (step h (SubSettle i outcome)) =
    calls_of j h ++ (if decide (i = j) then on_settle sub outcome else []).
Proof.
  intros Hi Hp. simpl. unfold sub_on_settle. rewrite Hi, Hp.
  unfold calls_of. simpl. rewrite filter_app, fmap_app, filter_tagged.
  case_decide; [| done]. rewrite <- list_fmap_compose. f_equal.
  by rewrite list_fmap_id.
Qed.

Lemma calls_settled_reachable (evs : list SubscriptionEvent) :
  calls_settled (run subscription_init evs).
Proof.
  apply calls_settled_run. intros j c Hc. by apply not_elem_of_nil in Hc.
Qed.

(** X15: when the promise of a run that is neither stopped nor settled
    resolves, [onBatch] receives the batch if the caller gave one, and
    nothing else is invoked, unless [onBatch] throws: what it throws goes to
    [onError].  When the promise rejects, [onError] receives the error if
    the caller gave one, and [onBatch] is not invoked. *)
Theorem useSubscription_delivery
    (evs : list SubscriptionEvent) (i : nat) (sub : Subscription)
    (outcome : settled jsval) :
  hook_subs (run subscription_init evs) !! i = Some sub →
  stopped sub = false →
  promise sub = None →
  calls_of i (step (run subscription_init evs) (SubSettle i outcome)) =
    match outcome with
    | Fulfilled d =>
        match sub_opts sub ≫= opt_onBatch with
        | None => []
        | Some onBatch =>
            OnBatch d ::
            match onBatch d, sub_opts sub ≫= opt_onError with
            | Some thrown, Some _ => [OnError thrown]
            | _, _ => []
            end
        end
    | Rejected err =>
        match sub_opts sub ≫= opt_onError with
        | Some _ => [OnError err]
        | None => []
        end
    end.
Proof.
  intros Hi Hs Hp. rewrite (calls_of_settle _ i i sub) by done.
  rewrite decide_True by done. rewrite <- on_settle_live by done.
  assert (Hnil : calls_of i (run subscription_init evs) = []).
  { apply calls_of_nil_iff. intros c Hin.
    destruct (calls_settled_reachable evs i c Hin) as (sub' & Hi' & Hp').
    assert (sub' = sub) as -> by congruence. rewrite Hp in Hp'. by destruct Hp'. }
  by rewrite Hnil.
Qed.

(** X16: over the whole life of the component each run of the effect
    invokes [onBatch] at most once and [onError] at most once, and
    [onError] never comes before [onBatch]. *)
Theorem useSubscription_calls_well_formed (evs : list SubscriptionEvent) (i : nat) :
  calls_well_formed (calls_of i (run subscription_init evs)).
Proof.
  assert (Hgen : ∀ h, calls_settled h → (∀ j, calls_well_formed (calls_of j h)) →
            ∀ j, calls_well_formed (calls_of j (run h evs))).
  { induction evs as [| ev evs IH]; intros h Hset Hwf; simpl; [done |].
    apply IH; [by apply calls_settled_step |]. intros j.
    destruct ev as [pa opts | | k outcome].
    - simpl. destruct (hook_unmounted h); [done |]. unfold sub_render.
      case_decide; [done |]. destruct (negb _); apply (Hwf j).
    - simpl. destruct (hook_unmounted h); [done |]. apply (Hwf j).
    - destruct (hook_subs h !! k) as [sub |] eqn:Hk;
        [| simpl; unfold sub_on_settle; rewrite Hk; apply Hwf].
      destruct (promise sub) eqn:Hp;
        [simpl; unfold sub_on_settle; rewrite Hk, Hp; apply Hwf |].
      rewrite (calls_of_settle h k j sub) by done.
      case_decide; [| rewrite app_nil_r; apply Hwf]. subst k.
      assert (Hnil : calls_of j h = []).
      { apply calls_of_nil_iff. intros c Hin.
        destruct (Hset j c Hin) as (sub' & Hj' & Hp').
        assert (sub' = sub) as -> by congruence. rewrite Hp in Hp'. by destruct Hp'. }
      rewrite Hnil. apply on_settle_well_formed. }
  apply Hgen.
  - intros j c Hc. by apply not_elem_of_nil in Hc.
  - done.
Qed.
End useSubscription_more.

Lemma useSubscription_one_live_run_witness :
  (0 = 0)%nat.
Proof.
  refine (proj2 (useSubscription_one_live_run (λ _, "k")
                   [SubRender chat_args (Some chat_opts)]) 0%nat 0%nat _ _ _ _ _ _);
    reflexivity.
Defined.

Lemma useSubscription_disabled_witness :
  hook_subs
    (sub_run (λ _, "k") subscription_init
       [SubRender chat_args
          (Some {| opt_enabled := Some false; opt_onError := None; opt_onBatch := None |});
        SubSettle 0 (Fulfilled JNull); SubUnmount]) = [].
Proof.
  refine (proj1 (useSubscription_disabled (λ _, "k") _ _)).
  repeat constructor.
Defined.

Lemma useSubscription_delivery_witness :
  calls_of 0
    (sub_step (λ _, "k")
       (sub_run (λ _, "k") subscription_init [SubRender chat_args (Some throwing_opts)])
       (SubSettle 0 (Fulfilled (JArr []))))
  = [OnBatch (JArr []); OnError (JStr "bad batch")].
Proof.
  apply (useSubscription_delivery (λ _, "k") [SubRender chat_args (Some throwing_opts)] 0
           {| sub_path := "chat.messages"; sub_input := JObj [("room", JStr "a")];
              sub_opts := Some throwing_opts; stopped := false; promise := None;
              cancelled := false |} (Fulfilled (JArr []))); reflexivity.
Defined.

(** ** More on [useLiveQuery] *)

Section useLiveQuery_more.
Variable heap : nat → jsval.
Variable userInput : list (string * jsval).

Abbreviation lstep := (live_step heap userInput).
Abbreviation lrun := (live_run heap userInput).
Abbreviation request := (request_with heap userInput).

Ltac live_unfold :=
  unfold live_step, commit, effect_due, live_effect, applies,
    before_render, rq_fetch, call_queryFn, live_request, request_with,
    lastCursor, exposed_data in *;
  simpl in *.

Lemma live_cursors_mono (known known' : list cursor_val) (s : LiveQuery) :
  known ⊆ known' → live_cursors heap userInput known s →
  live_cursors heap userInput known' s.
Proof.
  intros Hsub (Hc & Hl & Hr). repeat split; [by apply Hsub | by apply Hsub |].
  intros r Hin. destruct (Hr r Hin) as (c & Hk & ->). exists c. split; [by apply Hsub | done].
Qed.

Lemma live_cursors_call (known : list cursor_val) (s : LiveQuery) :
  live_cursors heap userInput known s →
  live_cursors heap userInput known (call_queryFn heap userInput s).
Proof.
  intros (Hc & Hl & Hr). repeat split; [done | done |].
  intros r. unfold call_queryFn. cbn [requests].
  rewrite elem_of_app, list_elem_of_singleton. intros [Hin | ->]; [by apply Hr |].
  by exists (currentCursor s).
Qed.

Lemma live_cursors_fetch (known : list cursor_val) (s : LiveQuery) :
  live_cursors heap userInput known s →
  live_cursors heap userInput known (rq_fetch heap userInput s).
Proof.
  intros H. unfold rq_fetch. destruct (inflight s); [by apply live_cursors_call | done].
Qed.

Lemma live_cursors_commit (known : list cursor_val) (s : LiveQuery) :
  live_cursors heap userInput known s →
  live_cursors heap userInput known (commit heap userInput s).
Proof.
  intros (Hc & Hl & Hr). unfold commit. destruct (effect_due s); [| done].
  unfold live_effect. apply live_cursors_fetch. by repeat split.
Qed.

Lemma live_cursors_before_render (known : list cursor_val) (s : LiveQuery) (ev : LiveEvent) :
  CPrim PUndefined ∈ known →
  live_cursors heap userInput known s →
  live_cursors heap userInput (known ++ event_cursors ev) (before_render heap userInput s ev).
Proof.
  intros Hu H.
  assert (H' : live_cursors heap userInput (known ++ event_cursors ev) s).
  { apply (live_cursors_mono known); [| done]. intros c Hc. apply elem_of_app. by left. }
  destruct H' as (Hc & Hl & Hr).
  destruct ev as [cached fom | b | [] | |]; cbn [before_render].
  - assert (Hm : live_cursors heap userInput (known ++ event_cursors (Mount cached fom))
                   {| mounted := true; currentCursor := currentCursor s;
                      effectDeps := effectDeps s; hookData := cached;
                      inflight := inflight s; requests := requests s;
                      refetchCalls := refetchCalls s |}).
    { repeat split; [done | | done]. unfold lastCursor. cbn [hookData].
      apply elem_of_app. destruct cached as [b |]; cbn [event_cursors].
      - right. apply list_elem_of_singleton. unfold cursor_of, batch_cursor. simpl.
        by destruct (last b).
      - by left. }
    destruct fom; [by apply live_cursors_fetch | done].
  - repeat split; [done | | done]. unfold lastCursor. cbn [hookData event_cursors].
    apply elem_of_app. right. apply list_elem_of_singleton.
    unfold cursor_of, batch_cursor. simpl. by destruct (last b).
  - by apply live_cursors_call.
  - by repeat split.
  - by apply live_cursors_fetch.
  - by repeat split.
Qed.

Lemma live_cursors_step (known : list cursor_val) (s : LiveQuery) (ev : LiveEvent) :
  CPrim PUndefined ∈ known →
  live_cursors heap userInput known s →
  live_cursors heap userInput (known ++ event_cursors ev) (lstep s ev).
Proof.
  intros Hu H. unfold live_step. destruct (applies s ev).
  - by apply live_cursors_commit, live_cursors_before_render.
  - apply (live_cursors_mono known); [| done]. intros c Hc. apply elem_of_app. by left.
Qed.

Lemma live_cursors_run (evs : list LiveEvent) (known : list cursor_val) (s : LiveQuery) :
  CPrim PUndefined ∈ known →
  live_cursors heap userInput known s →
  live_cursors heap userInput (known ++ (evs ≫= event_cursors)) (lrun s evs).
Proof.
  revert known s. induction evs as [| ev evs IH]; intros known s Hu H.
  - simpl. by rewrite app_nil_r.
  - rewrite bind_cons, app_assoc. cbn [live_run foldl].
    apply (IH (known ++ event_cursors ev)); [apply elem_of_app; by left |].
    by apply live_cursors_step.
Qed.

(** X10: every request that [useLiveQuery] sends, in any run, is the input
    of the hook with a [cursor] set: the other properties of the input are
    all there, unchanged and in their order, and the cursor is the initial
    [null] of the ref, [undefined], or the cursor of the last item of a
    batch that the cache held at mount or that arrived before, be it a
    primitive value or an object. *)
Theorem useLiveQuery_requests_keep_input (evs : list LiveEvent) (r : jsval) :
  r ∈ requests (lrun live_init evs) →
  ∃ (c : cursor_val) (fields : list (string * jsval)),
    c ∈ CPrim PNull :: CPrim PUndefined :: (evs ≫= event_cursors)
    ∧ r = JObj fields
    ∧ obj_get "cursor" fields = Some (cursor_value heap c)
    ∧ (∀ k, k ≠ "cursor" → obj_get k fields = obj_get k userInput)
    ∧ fields.*1 =
        if decide ("cursor" ∈ userInput.*1) then userInput.*1
        else userInput.*1 ++ ["cursor"].
Proof.
  intros Hr.
  destruct (live_cursors_run evs [CPrim PNull; CPrim PUndefined] live_init)
    as (_ & _ & Hreq).
  { right. left. }
  { repeat split; simpl; [left | right; left |].
    intros r' Hr'. by apply not_elem_of_nil in Hr'. }
  destruct (Hreq r Hr) as (c & Hc & ->).
  exists c, (obj_set "cursor" (cursor_value heap c) userInput).
  split; [done |]. split; [done |].
  split; [apply obj_get_set_eq |].
  split; [intros k Hk; by apply obj_get_set_ne | apply obj_set_keys].
Qed.

(** X17: a request that fails leaves the data, the exposed data and the
    stored cursor as they were, and the effect does not run.  When the
    cache retries, the query function is called again: one more request
    leaves, with the stored cursor, and it is the one in flight.  When the
    cache gives up, no request is in flight and none is sent, neither then
    nor at later renders, so the loop has ended until the caller steps in:
    a refetch forced by the caller sends one request, which carries the
    cursor of the last item received. *)
Theorem useLiveQuery_failed_request (s : LiveQuery) :
  live_reachable heap userInput s →
  mounted s = true →
  inflight s ≠ [] →
  (let s' := lstep s (Fail true) in
   hookData s' = hookData s
   ∧ exposed_data s' = exposed_data s
   ∧ currentCursor s' = currentCursor s
   ∧ refetchCalls s' = refetchCalls s
   ∧ ∃ r, requests s' = requests s ++ [r]
       ∧ inflight s' = [r]
       ∧ carries_cursor userInput (cursor_value heap (currentCursor s)) r)
  ∧ (let s' := lstep s (Fail false) in
     hookData s' = hookData s
     ∧ exposed_data s' = exposed_data s
     ∧ currentCursor s' = currentCursor s
     ∧ refetchCalls s' = refetchCalls s
     ∧ requests s' = requests s
     ∧ inflight s' = []
     ∧ lstep s' Rerender = s'
     ∧ ∃ r, requests (lstep s' Refetch) = requests s ++ [r]
         ∧ inflight (lstep s' Refetch) = [r]
         ∧ carries_cursor userInput (cursor_value heap (lastCursor s)) r).
Proof.
  intros Hreach Hmounted Hfl.
  destruct (live_reachable_inv heap userInput s Hreach) as (_ & Hm & Hlen).
  destruct (Hm Hmounted) as [Hdeps Hcur].
  destruct s as [m c deps raw fl reqs n]; simpl in *. subst m deps.
  destruct fl as [| r [| r' fl]]; simpl in *; try done; try lia.
  split.
  - cbv zeta. unfold live_step. simpl.
    rewrite effect_not_due by (simpl; by f_equal). simpl.
    repeat split. eexists. repeat split. apply (request_carries heap userInput c).
  - set (t := {| mounted := true; currentCursor := c; effectDeps := Some c;
                 hookData := raw; inflight := []; requests := reqs;
                 refetchCalls := n |}).
    assert (Ht : lstep {| mounted := true; currentCursor := c; effectDeps := Some c;
                          hookData := raw; inflight := [r]; requests := reqs;
                          refetchCalls := n |} (Fail false) = t).
    { unfold live_step. simpl. apply effect_not_due. simpl. by f_equal. }
    cbv zeta. rewrite Ht. repeat split.
    + unfold live_step. simpl. apply effect_not_due. simpl. by f_equal.
    + unfold live_step. simpl. rewrite effect_not_due by (simpl; by f_equal).
      simpl. eexists. repeat split. rewrite <- Hcur.
      apply (request_carries heap userInput c).
Qed.

Lemma live_step_requests_bound (s : LiveQuery) (ev : LiveEvent) :
  live_inv s →
  (length (requests (lstep s ev)) ≤
     length (requests s) + if may_request ev then 1 else 0)%nat
  ∧ (refetchCalls (lstep s ev) ≤
       refetchCalls s + if may_refetch ev then 1 else 0)%nat.
Proof.
  intros (Hunm & Hm & Hfl). destruct s as [m c deps raw fl reqs n]; simpl in *.
  destruct m.
  - destruct (Hm eq_refl) as [-> Hc]. clear Hunm Hm.
    destruct ev as [cached fom | b | [] | |]; live_unfold; subst c;
      destruct fl as [| r [| r' fl]]; simpl in *; try lia;
      repeat case_bool_decide; simpl; rewrite ?length_app; simpl; try lia; done.
  - rewrite (Hunm eq_refl). clear.
    destruct ev as [cached fom | b | [] | |]; live_unfold; try lia.
    destruct fom; simpl; lia.
Qed.

(** X18: the loop cannot send requests on its own.  In every run the
    number of requests sent is at most the number of mounts, batches
    received, refetches forced by the caller and failures that the cache
    retries; renders and failures that the cache gives up on send none.
    And the effect has called [refetch] at most once per mount and per
    batch received. *)
Theorem useLiveQuery_requests_bounded (evs : list LiveEvent) :
  (length (requests (lrun live_init evs))
     ≤ length (filter (λ ev, may_request ev = true) evs))%nat
  ∧ (refetchCalls (lrun live_init evs)
       ≤ length (filter (λ ev, may_refetch ev = true) evs))%nat.
Proof.
  assert (Hgen : ∀ s, live_inv s →
            (length (requests (lrun s evs))
               ≤ length (requests s) + length (filter (λ ev, may_request ev = true) evs))%nat
            ∧ (refetchCalls (lrun s evs)
                 ≤ refetchCalls s
                   + length (filter (λ ev, may_refetch ev = true) evs))%nat).
  { induction evs as [| ev evs IH]; intros s Hs; simpl; [lia |].
    specialize (IH (lstep s ev) (live_inv_step heap userInput s ev Hs)).
    pose proof (live_step_requests_bound s ev Hs) as Hstep.
    rewrite !filter_cons.
    destruct (may_request ev) eqn:Hev, (may_refetch ev) eqn:Hev';
      repeat (first [rewrite decide_True by done | rewrite decide_False by done]);
      simpl; lia. }
  apply (Hgen live_init), live_inv_init.
Qed.

(** X19: a component that mounts on a cache holding a batch exposes the
    data of its last item at once and stores the cursor of that item.  Its
    first request carries that cursor when the effect of the hook sends it;
    when the cache itself fetches on mount, that fetch leaves first and
    carries the initial [null] of the ref, and the refetch of the effect is
    absorbed. *)
Theorem useLiveQuery_mount_on_cached_batch (cached : Batch) (fetchOnMount : bool) :
  let s := lstep live_init (Mount (Some cached) fetchOnMount) in
  exposed_data s = from_option data JUndefined (last cached)
  ∧ currentCursor s = cursor_of cached
  ∧ requests s =
      [request_with heap userInput (if fetchOnMount then CPrim PNull else cursor_of cached)]
  ∧ inflight s = requests s
  ∧ refetchCalls s = 1%nat
  ∧ Forall (carries_cursor userInput
              (cursor_value heap (if fetchOnMount then CPrim PNull else cursor_of cached)))
      (requests s).
Proof.
  cbv zeta.
  assert (Hreq : requests (lstep live_init (Mount (Some cached) fetchOnMount)) =
            [request_with heap userInput
               (if fetchOnMount then CPrim PNull else cursor_of cached)]).
  { unfold cursor_of, batch_cursor. live_unfold.
    destruct fetchOnMount; simpl; by destruct (last cached). }
  split; [| split; [| split; [done | split; [| split]]]].
  - live_unfold. destruct fetchOnMount; simpl; by destruct (last cached).
  - unfold cursor_of, batch_cursor. live_unfold.
    destruct fetchOnMount; simpl; by destruct (last cached).
  - rewrite Hreq. clear Hreq. unfold cursor_of, batch_cursor. live_unfold.
    destruct fetchOnMount; simpl; by destruct (last cached).
  - live_unfold. by destruct fetchOnMount; simpl; destruct (last cached).
  - rewrite Hreq. constructor; [apply request_carries | constructor].
Qed.
End useLiveQuery_more.

Lemma useLiveQuery_requests_keep_input_witness :
  ∃ (c : cursor_val) (fields : list (string * jsval)),
    c ∈ [CPrim PNull; CPrim PUndefined; CPrim (PNum 1)]
    ∧ JObj [("room", JStr "a"); ("cursor", JNum 1)] = JObj fields
    ∧ obj_get "cursor" fields = Some (cursor_value no_objects c)
    ∧ (∀ k, k ≠ "cursor" → obj_get k fields = obj_get k room_input)
    ∧ fields.*1 =
        if decide ("cursor" ∈ room_input.*1) then room_input.*1
        else room_input.*1 ++ ["cursor"].
Proof.
  apply (useLiveQuery_requests_keep_input no_objects room_input
           [Mount None true; Resolve (batch_at 1 "x")]
           (JObj [("room", JStr "a"); ("cursor", JNum 1)])).
  right. left.
Defined.

Lemma useLiveQuery_failed_request_witness :
  requests
    (live_step no_objects room_input
       (live_run no_objects room_input live_init
          [Mount None true; Resolve (batch_at 1 "x")]) (Fail false))
  = requests (live_run no_objects room_input live_init
                [Mount None true; Resolve (batch_at 1 "x")]).
Proof.
  refine (proj1 (proj2 (proj2 (proj2 (proj2 (proj2
            (useLiveQuery_failed_request no_objects room_input
               (live_run no_objects room_input live_init
                  [Mount None true; Resolve (batch_at 1 "x")]) _ _ _))))))).
  - by exists [Mount None true; Resolve (batch_at 1 "x")].
  - reflexivity.
  - discriminate.
Defined.
